(** * Package tracking scanner: decode pipeline, extractor and stability gate

    A shallow embedding of the scanner script (pickTracking, maybeEmit,
    stopDecoding, decodeFromFile, createInvertedCanvas,
    detectBarcodeBandFromCanvas, createAdaptiveThresholdCanvas) and the
    properties its design document states about them.

    Conventions.
    - A JavaScript string is the list of its UTF-16 code units, each a [Z].
    - A JavaScript number that only ever holds an integer is a [Z]
      (counters, millisecond timestamps, bytes) or, where it is a size
      or an array index, a [nat].
    - A JavaScript number that holds a fraction (luminance, sums of
      luminance, scale factors) is an exact rational, a [Qc]: the
      rounding of IEEE doubles is not modelled.
    - The DOM, the log and the clipboard are not modelled: [log],
      [renderState] and the style changes have no influence on any value
      the functions below compute.  What [renderState] does is recorded
      as the boolean the caller receives. *)

From Stdlib Require Import String Ascii ZArith QArith Qcanon Qround Qcabs.
From Stdlib Require Import List Bool Lia.
Import ListNotations.
Close Scope Qc_scope.
Close Scope Q_scope.
Open Scope Z_scope.

(** ** JavaScript strings *)

Module JS.

Definition jsstring := list Z.

Definition code (a : ascii) : Z := Z.of_N (N_of_ascii a).

(** The code units of a string literal written in ASCII. *)
Definition lit (s : string) : jsstring := map code (list_ascii_of_string s).

Fixpoint str_eqb (a b : jsstring) : bool :=
  match a, b with
  | [], [] => true
  | x :: a', y :: b' => (x =? y) && str_eqb a' b'
  | _, _ => false
  end.

(** Truthiness of a string: only the empty string is falsy. *)
Definition truthy (s : jsstring) : bool :=
  match s with [] => false | _ => true end.

End JS.
Import JS.

(** ** Carriers and tracking matches *)

Inductive Carrier := UPS | FedEx | USPS | DHL | Amazon | OnTrac.

Record TrackingMatch := mkTracking { carrier : Carrier; number : jsstring }.

(** ** Regular expressions

    The fragment of ECMAScript regular expressions the script uses, run
    the way the language defines it: a backtracking matcher that tries the
    alternatives in priority order (a greedy quantifier first takes as
    many characters as it can, an alternation tries its left branch
    first) at each start index from the left.  [run] returns the states
    the matcher can leave a pattern in, in the order backtracking would
    reach them; the first one is the match. *)

Module Regex.

(** A character class is a list of inclusive code-unit ranges. *)
Definition cls := list (Z * Z).

Definition digit : cls := [(48, 57)].                          (* \d *)
Definition word : cls := [(48, 57); (65, 90); (95, 95); (97, 122)].  (* \w *)
Definition alnum_upper : cls := [(48, 57); (65, 90)].          (* [0-9A-Z] *)
(** [\s]: the WhiteSpace and LineTerminator code points. *)
Definition space : cls :=
  [(9, 13); (32, 32); (160, 160); (5760, 5760); (8192, 8202);
   (8232, 8233); (8239, 8239); (8287, 8287); (12288, 12288);
   (65279, 65279)].

Definition in_cls (k : cls) (c : Z) : bool :=
  existsb (fun r => (fst r <=? c) && (c <=? snd r)) k.

(** Canonicalize of the [i] flag (without [u]) maps a code unit to its
    upper case, and never maps a code unit from 128 on to one below 128.
    Every literal and every class under an [i] flag in the script is
    ASCII, so what Canonicalize does from 128 on is never compared with
    anything: it is the identity here. *)
Definition upper (c : Z) : Z :=
  if (97 <=? c) && (c <=? 122) then c - 32 else c.
Definition lower (c : Z) : Z :=
  if (65 <=? c) && (c <=? 90) then c + 32 else c.

Definition char_match (ic : bool) (p c : Z) : bool :=
  if ic then upper p =? upper c else p =? c.

(** Under [i] a class matches [c] when one of its members canonicalizes
    as [c] does; for an ASCII member that is [c] in either case. *)
Definition class_match (ic : bool) (k : cls) (c : Z) : bool :=
  if ic then in_cls k (upper c) || in_cls k (lower c) else in_cls k c.

(** Quantifiers are applied to classes only, as in the script:
    [k{n}] is [Rep k n (Some n)], [k{n,m}] is [Rep k n (Some m)],
    [k{n,}] is [Rep k n None], [k?] is [Rep k 0 (Some 1)] and
    [k+] is [Rep k 1 None]. *)
Inductive regex :=
| Eps
| Chr (c : Z)
| Cls (k : cls)
| Rep (k : cls) (min : nat) (max : option nat)
| Seq (r1 r2 : regex)
| Alt (r1 r2 : regex)
| Grp (r : regex)      (* a capturing group; no pattern has two *)
| Bol                  (* ^ *)
| Eol.                 (* $ *)

Record RegExp := mkRegExp { source : regex; ignoreCase : bool }.

Definition cat (rs : list regex) : regex := fold_right Seq Eps rs.
Definition chars (s : string) : regex := cat (map Chr (lit s)).
Definition exactly (k : cls) (n : nat) : regex := Rep k n (Some n).

(** A matcher state: the index reached, the input from there on, and
    what the capturing group holds. *)
Record mstate := mkState { pos : nat; rest : jsstring; cap : option jsstring }.

Fixpoint rep (ic : bool) (k : cls) (min : nat) (max : option nat)
    (p : nat) (s : jsstring) (cp : option jsstring) : list mstate :=
  let stop := match min with O => [mkState p s cp] | S _ => [] end in
  match max with
  | Some O => stop
  | _ =>
      match s with
      | c :: s' =>
          if class_match ic k c
          then rep ic k (Nat.pred min) (option_map Nat.pred max) (S p) s' cp
               ++ stop
          else stop
      | [] => stop
      end
  end.

Fixpoint run (ic : bool) (r : regex) (st : mstate) : list mstate :=
  match r with
  | Eps => [st]
  | Chr c =>
      match rest st with
      | x :: xs => if char_match ic c x
                   then [mkState (S (pos st)) xs (cap st)] else []
      | [] => []
      end
  | Cls k =>
      match rest st with
      | x :: xs => if class_match ic k x
                   then [mkState (S (pos st)) xs (cap st)] else []
      | [] => []
      end
  | Rep k min max => rep ic k min max (pos st) (rest st) (cap st)
  | Seq r1 r2 => flat_map (run ic r2) (run ic r1 st)
  | Alt r1 r2 => run ic r1 st ++ run ic r2 st
  | Grp r1 =>
      map (fun st' => mkState (pos st') (rest st')
                        (Some (firstn (pos st' - pos st) (rest st))))
          (run ic r1 st)
  | Bol => if (pos st =? 0)%nat then [st] else []
  | Eol => match rest st with [] => [st] | _ :: _ => [] end
  end.

(** The result array of a match: [index], element 0 (the matched text)
    and element 1 (the group, undefined if it took no part). *)
Record MatchResult := mkMatch { index : nat; m0 : jsstring; m1 : option jsstring }.

(** The match attempt at index [p], and the search from [p] on. *)
Definition match_at (ic : bool) (r : regex) (p : nat) (s : jsstring)
    : option MatchResult :=
  match run ic r (mkState p s None) with
  | st :: _ => Some (mkMatch p (firstn (pos st - p) s) (cap st))
  | [] => None
  end.

Fixpoint search (ic : bool) (r : regex) (p : nat) (s : jsstring)
    : option MatchResult :=
  match match_at ic r p s with
  | Some m => Some m
  | None => match s with
            | [] => None
            | _ :: s' => search ic r (S p) s'
            end
  end.

(** [re.exec(text)] and [text.match(re)] for a pattern without the [g]
    flag, and [re.test(text)]. *)
Definition exec (re : RegExp) (text : jsstring) : option MatchResult :=
  search (ignoreCase re) (source re) 0 text.

Definition test (re : RegExp) (text : jsstring) : bool :=
  match exec re text with Some _ => true | None => false end.

(** [text.replace(re, by)] for a pattern with the [g] flag and a
    replacement without [$]: every match, from the left, is replaced; an
    empty match steps one code unit on.  [s] is the input from index
    [p] on. *)
Fixpoint replace_from (fuel : nat) (re : RegExp) (by_ : jsstring)
    (p : nat) (s : jsstring) : jsstring :=
  match fuel with
  | O => s
  | S fuel' =>
      match search (ignoreCase re) (source re) p s with
      | None => s
      | Some m =>
          let skipped := (index m - p)%nat in
          let len := length (m0 m) in
          firstn skipped s ++ by_ ++
          match len with
          | O => match skipn skipped s with
                 | [] => []
                 | c :: s' => c :: replace_from fuel' re by_ (S (index m)) s'
                 end
          | S _ => replace_from fuel' re by_ (index m + len)
                     (skipn (skipped + len) s)
          end
      end
  end.

Definition replace_all (re : RegExp) (by_ : jsstring) (text : jsstring)
    : jsstring :=
  replace_from (S (length text)) re by_ 0 text.

(** [text.trim()]: the white space and line terminators at both ends
    are dropped. *)
Fixpoint trim_start (s : jsstring) : jsstring :=
  match s with
  | c :: s' => if in_cls space c then trim_start s' else s
  | [] => []
  end.

Definition trim (s : jsstring) : jsstring :=
  rev (trim_start (rev (trim_start s))).

End Regex.

(** ** What a pattern matches

    The language of a pattern, stated on the text and not on the
    matcher: [matches ic r before w after] says that [r] matches the
    characters [w] when [before] characters come before them in the
    input and [after] are the ones that follow. *)

Module RegexSpec.
Import Regex.

(** [j] repetitions are within the upper bound of a quantifier. *)
Definition within (max : option nat) (j : nat) : Prop :=
  match max with Some m => (j <= m)%nat | None => True end.

Fixpoint matches (ic : bool) (r : regex) (before : nat)
    (w after : jsstring) : Prop :=
  match r with
  | Eps => w = []
  | Chr c => exists x, w = [x] /\ char_match ic c x = true
  | Cls k => exists x, w = [x] /\ class_match ic k x = true
  | Rep k min max =>
      Forall (fun x => class_match ic k x = true) w
      /\ (min <= length w)%nat
      /\ within max (length w)
  | Seq r1 r2 =>
      exists w1 w2, w = w1 ++ w2
        /\ matches ic r1 before w1 (w2 ++ after)
        /\ matches ic r2 (before + length w1) w2 after
  | Alt r1 r2 => matches ic r1 before w after \/ matches ic r2 before w after
  | Grp r1 => matches ic r1 before w after
  | Bol => w = [] /\ before = 0%nat
  | Eol => w = [] /\ after = []
  end.

(** The pattern matches somewhere in the text; it matches the text as a
    whole. *)
Definition matches_in (re : RegExp) (text : jsstring) : Prop :=
  exists pre w post, text = pre ++ w ++ post
    /\ matches (ignoreCase re) (source re) (length pre) w post.

Definition matches_whole (re : RegExp) (text : jsstring) : Prop :=
  matches (ignoreCase re) (source re) 0 text [].

(** How many characters a greedy quantifier takes at most: the length
    of the run of class members at the head of [s], capped by [max]. *)
Fixpoint reach (ic : bool) (k : cls) (max : option nat) (s : jsstring) : nat :=
  match max with
  | Some O => O
  | _ =>
      match s with
      | c :: s' => if class_match ic k c
                   then S (reach ic k (option_map Nat.pred max) s')
                   else O
      | [] => O
      end
  end.

(** [hi, hi-1, ..., lo]. *)
Fixpoint countdown (hi lo : nat) : list nat :=
  if (hi <? lo)%nat then []
  else hi :: match hi with O => [] | S h => countdown h lo end.

(** The pattern starts with [^]; the pattern ends with [$]. *)
Definition anchored_start (r : regex) : bool :=
  match r with Seq Bol _ => true | Bol => true | _ => false end.

Fixpoint anchored_end (r : regex) : bool :=
  match r with
  | Eol => true
  | Seq r1 Eps => anchored_end r1
  | Seq _ r2 => anchored_end r2
  | _ => false
  end.

End RegexSpec.

(** ** Tracking number extractor: pickTracking *)

Module Tracking.
Import Regex.

(** [trackingPatterns], in the order [Object.entries] lists its keys. *)
Definition UPS_re : RegExp :=         (* /^1Z[0-9A-Z]{16}$/i *)
  mkRegExp (cat [Bol; chars "1Z"; exactly alnum_upper 16; Eol]) true.
Definition FedEx_re : RegExp :=       (* /^(\d{12}|\d{15})$/ *)
  mkRegExp (cat [Bol; Grp (Alt (exactly digit 12) (exactly digit 15)); Eol])
           false.
Definition USPS_re : RegExp :=
  (* /^(\d{20,22}|\d{4}\s?\d{4}\s?\d{4}\s?\d{4}\s?\d{4}\s?\d{4}\s?\d{2})$/ *)
  mkRegExp
    (cat [Bol;
          Grp (Alt (Rep digit 20 (Some 22%nat))
                   (cat [exactly digit 4; Rep space 0 (Some 1%nat);
                         exactly digit 4; Rep space 0 (Some 1%nat);
                         exactly digit 4; Rep space 0 (Some 1%nat);
                         exactly digit 4; Rep space 0 (Some 1%nat);
                         exactly digit 4; Rep space 0 (Some 1%nat);
                         exactly digit 4; Rep space 0 (Some 1%nat);
                         exactly digit 2]));
          Eol])
    false.
Definition DHL_re : RegExp :=         (* /^\d{10}$/ *)
  mkRegExp (cat [Bol; exactly digit 10; Eol]) false.
Definition Amazon_re : RegExp :=      (* /^(TBA\d{12}|AMZN\w{8,})$/i *)
  mkRegExp
    (cat [Bol;
          Grp (Alt (cat [chars "TBA"; exactly digit 12])
                   (cat [chars "AMZN"; Rep word 8 None]));
          Eol])
    true.
Definition OnTrac_re : RegExp :=      (* /^C\d{14}$/ *)
  mkRegExp (cat [Bol; chars "C"; exactly digit 14; Eol]) false.

Definition trackingPatterns : list (Carrier * RegExp) :=
  [(UPS, UPS_re); (FedEx, FedEx_re); (USPS, USPS_re); (DHL, DHL_re);
   (Amazon, Amazon_re); (OnTrac, OnTrac_re)].

(** /\s+/g *)
Definition spaces_re : RegExp := mkRegExp (Rep space 1 None) false.

(** /(\d{4}\s+\d{4}\s+\d{4}\s+\d{4}\s+\d{4}\s+\d{4}\s+\d{2})/ *)
Definition uspsSpaced_re : RegExp :=
  mkRegExp
    (Grp (cat [exactly digit 4; Rep space 1 None;
               exactly digit 4; Rep space 1 None;
               exactly digit 4; Rep space 1 None;
               exactly digit 4; Rep space 1 None;
               exactly digit 4; Rep space 1 None;
               exactly digit 4; Rep space 1 None;
               exactly digit 2]))
    false.

(** /(\d{20,22})/ *)
Definition longNumber_re : RegExp :=
  mkRegExp (Grp (Rep digit 20 (Some 22%nat))) false.

(** Element 1 of a match array read as a string; the group of the two
    patterns it is read from takes part in every match. *)
Definition group1 (m : MatchResult) : jsstring :=
  match m1 m with Some s => s | None => [] end.

(** The loop [for (const [carrier, pattern] of Object.entries(...))]. *)
Fixpoint first_pattern (table : list (Carrier * RegExp)) (s : jsstring)
    : option TrackingMatch :=
  match table with
  | [] => None
  | (carrier, pattern) :: table' =>
      match exec pattern s with
      | Some m => Some (mkTracking carrier (m0 m))
      | None => first_pattern table' s
      end
  end.

Definition pickTracking (text : jsstring) : option TrackingMatch :=
  match first_pattern trackingPatterns text with
  | Some t => Some t
  | None =>
      let clean := replace_all spaces_re [] text in
      match first_pattern trackingPatterns clean with
      | Some t => Some t
      | None =>
          match exec uspsSpaced_re text with
          | Some uspsSpaced => Some (mkTracking USPS (group1 uspsSpaced))
          | None =>
              match exec longNumber_re text with
              | Some longNumber => Some (mkTracking USPS (group1 longNumber))
              | None => None
              end
          end
      end
  end.

End Tracking.

(** ** The extractor's contract, in the words of the design *)

Module TrackingSpec.
Import Regex RegexSpec Tracking.

(** The priority order of the carrier table and the pattern of each
    carrier. *)
Definition priority : list Carrier := [UPS; FedEx; USPS; DHL; Amazon; OnTrac].

Definition pattern (c : Carrier) : RegExp :=
  match c with
  | UPS => UPS_re | FedEx => FedEx_re | USPS => USPS_re
  | DHL => DHL_re | Amazon => Amazon_re | OnTrac => OnTrac_re
  end.

Definition rank (c : Carrier) : nat :=
  match c with
  | UPS => 0 | FedEx => 1 | USPS => 2 | DHL => 3 | Amazon => 4 | OnTrac => 5
  end.

(** The whole string matches the carrier's pattern. *)
Definition fully_matches (c : Carrier) (s : jsstring) : Prop :=
  matches_whole (pattern c) s.

Definition no_carrier (s : jsstring) : Prop :=
  forall c, ~ fully_matches c s.

(** [c] is the first carrier, in priority order, whose pattern the whole
    string matches. *)
Definition first_carrier (c : Carrier) (s : jsstring) : Prop :=
  fully_matches c s
  /\ forall c', (rank c' < rank c)%nat -> ~ fully_matches c' s.

Definition is_digit (c : Z) : Prop := in_cls digit c = true.
Definition is_space (c : Z) : Prop := in_cls space c = true.

(** The text with all white space removed. *)
Definition remove_whitespace (s : jsstring) : jsstring :=
  filter (fun c => negb (in_cls space c)) s.

(** [k] digits. *)
Definition digits (k : nat) (g : jsstring) : Prop :=
  length g = k /\ Forall is_digit g.

(** Groups of digits of the given sizes with one or more white-space
    characters between one group and the next. *)
Fixpoint spaced (sizes : list nat) (s : jsstring) : Prop :=
  match sizes with
  | [] => False
  | k :: sizes' =>
      match sizes' with
      | [] => digits k s
      | _ :: _ =>
          exists g ws s', s = g ++ ws ++ s'
            /\ digits k g /\ ws <> [] /\ Forall is_space ws
            /\ spaced sizes' s'
      end
  end.

Definition usps_spaced : jsstring -> Prop := spaced [4; 4; 4; 4; 4; 4; 2]%nat.

(** A run of 20 to 22 digits. *)
Definition long_digit_run (s : jsstring) : Prop :=
  Forall is_digit s /\ (20 <= length s <= 22)%nat.

(** A piece of the text has shape [P]. *)
Definition occurs (P : jsstring -> Prop) (text : jsstring) : Prop :=
  exists pre n post, text = pre ++ n ++ post /\ P n.

(** [n] is the piece of shape [P] that starts first in the text, and
    the longest one of those that start there. *)
Definition first_occurrence (P : jsstring -> Prop) (text n : jsstring)
    : Prop :=
  exists pre post, text = pre ++ n ++ post /\ P n
    /\ (forall pre' n' post', text = pre' ++ n' ++ post' -> P n' ->
          (length pre <= length pre')%nat)
    /\ (forall n' post', n ++ post = n' ++ post' -> P n' ->
          (length n' <= length n)%nat).

(** The pattern of digit groups of the given sizes with [\s+] between
    them, as [uspsSpaced_re] spells it out for 4-4-4-4-4-4-2. *)
Fixpoint spaced_regex (sizes : list nat) : regex :=
  match sizes with
  | [] => Eps
  | k :: sizes' =>
      match sizes' with
      | [] => Seq (exactly digit k) Eps
      | _ :: _ =>
          Seq (exactly digit k) (Seq (Rep space 1 None) (spaced_regex sizes'))
      end
  end.

(** The same groups with [\s?] between them, as the second
    alternative of the USPS table pattern spells it out. *)
Fixpoint optspaced_regex (sizes : list nat) : regex :=
  match sizes with
  | [] => Eps
  | k :: sizes' =>
      match sizes' with
      | [] => Seq (exactly digit k) Eps
      | _ :: _ =>
          Seq (exactly digit k)
            (Seq (Rep space 0 (Some 1%nat)) (optspaced_regex sizes'))
      end
  end.

(** Which pass produced a result, or that none did. *)
Definition pass1 (text : jsstring) (t : TrackingMatch) : Prop :=
  first_carrier (carrier t) text /\ number t = text.

Definition pass2 (text : jsstring) (t : TrackingMatch) : Prop :=
  no_carrier text
  /\ first_carrier (carrier t) (remove_whitespace text)
  /\ number t = remove_whitespace text.

Definition pass3 (text : jsstring) (t : TrackingMatch) : Prop :=
  no_carrier text /\ no_carrier (remove_whitespace text)
  /\ carrier t = USPS /\ first_occurrence usps_spaced text (number t).

Definition pass4 (text : jsstring) (t : TrackingMatch) : Prop :=
  no_carrier text /\ no_carrier (remove_whitespace text)
  /\ ~ occurs usps_spaced text
  /\ carrier t = USPS /\ first_occurrence long_digit_run text (number t).

Definition no_pass (text : jsstring) : Prop :=
  no_carrier text /\ no_carrier (remove_whitespace text)
  /\ ~ occurs usps_spaced text /\ ~ occurs long_digit_run text.

End TrackingSpec.

(** ** Decode orchestration: the native symbol choice and decodeFromFile *)

Module Orchestrator.
Import Regex.

(** A symbol the native detector reports.  [rawValue] is a string in
    every detector result, so the guards [b.rawValue||''] and
    [b.rawValue?.length||0] are the value and its length. *)
Record DetectedBarcode := mkBarcode { rawValue : jsstring; format : jsstring }.

(** /^TBA\d+/i *)
Definition tba_re : RegExp :=
  mkRegExp (cat [Bol; chars "TBA"; Rep digit 1 None]) true.

(** [arr.sort(cmp)]: a stable sort (ECMAScript 2019), here by insertion
    from the right; an element goes in front of the first one it does
    not compare greater than. *)
Fixpoint insert {A : Type} (cmp : A -> A -> Z) (x : A) (l : list A) : list A :=
  match l with
  | [] => [x]
  | y :: l' => if cmp x y <=? 0 then x :: l else y :: insert cmp x l'
  end.

Definition sort {A : Type} (cmp : A -> A -> Z) (l : list A) : list A :=
  fold_right (insert cmp) [] l.

(** [(a,b) => (b.rawValue?.length||0) - (a.rawValue?.length||0)] *)
Definition by_length_desc (a b : DetectedBarcode) : Z :=
  Z.of_nat (length (rawValue b)) - Z.of_nat (length (rawValue a)).

Definition is_tba (b : DetectedBarcode) : bool :=
  test tba_re (trim (rawValue b)).

(** The choice of [best] among the detected symbols:
    [barcodes.find(b => /^TBA\d+/i.test(...))], and if that finds none,
    [barcodes.sort(...)[0]]. *)
Definition selectBest (barcodes : list DetectedBarcode)
    : option DetectedBarcode :=
  match find is_tba barcodes with
  | Some best => Some best
  | None => hd_error (sort by_length_desc barcodes)
  end.




(** The text the native step yields from a detector result: nothing
    for an empty list or a text that is empty once trimmed. *)
Definition native_text (barcodes : list DetectedBarcode) : option jsstring :=
  match barcodes with
  | [] => None
  | _ :: _ =>
      let text := match selectBest barcodes with
                  | Some best => trim (rawValue best)
                  | None => []
                  end in
      if truthy text then Some text else None
  end.

(** The reader hints the script sets. *)
Inductive BarcodeFormat :=
  CODE_128 | CODE_39 | CODE_93 | CODABAR | ITF | EAN_13 | EAN_8
| UPC_A | UPC_E | QR_CODE | DATA_MATRIX.

Record Hints := mkHints {
  POSSIBLE_FORMATS : option (list BarcodeFormat);
  TRY_HARDER : option bool;
  PURE_BARCODE : option bool;
  ALSO_INVERTED : option bool
}.

(** [codeReader.hints], set in [initScanner]. *)
Definition baseline : Hints :=
  mkHints (Some [CODE_128; CODE_39; CODE_93; CODABAR; ITF; EAN_13; EAN_8;
                 UPC_A; UPC_E; QR_CODE; DATA_MATRIX])
          (Some true) None None.

(** [permissiveHints]. *)
Definition permissive : Hints :=
  mkHints None (Some true) (Some false) (Some true).

(** The entries of [imageVariations]. *)
Inductive Enhancement := highContrast | grayscale | sharpen.

Inductive Variation :=
| ImageElement
| CanvasFromFile (scale : Q)
| BandCanvasFromFile (scale : Q)
| CroppedCanvas (yStartFraction heightFraction scale : Q)
| AdaptiveThresholdCanvas (window C : Z) (scale : Q)
| VerticalEnhanceCanvas (scale : Q)
| BarcodeOptimizedCanvas
| EnhancedCanvasFromFile (enhancement : Enhancement)
| InvertedCanvas
| RotatedCanvas (degrees : Z).

Definition imageVariations : list Variation :=
  [ImageElement;
   CanvasFromFile 2.0; CanvasFromFile 1.5; CanvasFromFile 1.0;
   CanvasFromFile 0.75;
   BandCanvasFromFile 2.0; BandCanvasFromFile 1.5;
   CroppedCanvas 0.55 0.35 2.0; CroppedCanvas 0.35 0.40 2.0;
   AdaptiveThresholdCanvas 12 10 2.0; AdaptiveThresholdCanvas 24 12 1.5;
   AdaptiveThresholdCanvas 12 10 1.0;
   VerticalEnhanceCanvas 2.0;
   BarcodeOptimizedCanvas;
   EnhancedCanvasFromFile highContrast; EnhancedCanvasFromFile grayscale;
   EnhancedCanvasFromFile sharpen;
   InvertedCanvas;
   RotatedCanvas 90; RotatedCanvas 180; RotatedCanvas 270].

(** A call to one of the two backends. *)
Inductive Call :=
| NativeDetect (on : Variation)
| ZXingDecode (hints : Hints) (on : Variation).

Section Decode.

(** What the backends and the image loading do for the file at hand.
    [render v] is the surface variation [v] produces, or nothing if its
    promise rejects; [detect] is the native detector if the platform has
    one, returning the symbols or nothing if it throws; [decode h s] is
    [decodeFromImageElement] of a reader with hints [h], returning the
    text or nothing if it throws (it never resolves to a null result). *)
Variable Surface : Type.

Record Env := mkEnv {
  render : Variation -> option Surface;
  nativeDetector : option (Surface -> option (list DetectedBarcode));
  decode : Hints -> Surface -> option jsstring
}.

(** The block [if (nativeDetector) { try { ... } catch ... }]: the
    native result and the backend calls made. *)
Definition native_step (env : Env) : option jsstring * list Call :=
  match nativeDetector env with
  | None => (None, [])
  | Some detect =>
      match render env ImageElement with
      | None => (None, [])
      | Some img =>
          match detect img with
          | None => (None, [NativeDetect ImageElement])
          | Some barcodes =>
              (native_text barcodes, [NativeDetect ImageElement])
          end
      end
  end.

(** The loop over [imageVariations]: the result, [attemptCount] and the
    backend calls made. *)
Fixpoint zxing_loop (env : Env) (vs : list Variation) (attemptCount : nat)
    : option jsstring * nat * list Call :=
  match vs with
  | [] => (None, attemptCount, [])
  | v :: vs' =>
      match render env v with
      | None => zxing_loop env vs' attemptCount
      | Some imageElement =>
          match decode env baseline imageElement with
          | Some text =>
              (Some text, S attemptCount, [ZXingDecode baseline v])
          | None =>
              match decode env permissive imageElement with
              | Some text =>
                  (Some text, S attemptCount,
                   [ZXingDecode baseline v; ZXingDecode permissive v])
              | None =>
                  let '(result, n, calls) :=
                    zxing_loop env vs' (S attemptCount) in
                  (result, n,
                   ZXingDecode baseline v :: ZXingDecode permissive v :: calls)
              end
          end
      end
  end.

(** [decodeFromFile(file)]: the text of [finalResult], [attemptCount]
    and the backend calls, in the order they are made. *)
Definition decodeFromFile (env : Env) : option jsstring * nat * list Call :=
  let '(nativeResult, calls1) := native_step env in
  match nativeResult with
  | Some text => (Some text, O, calls1)
  | None =>
      let '(result, n, calls2) := zxing_loop env imageVariations 0 in
      (result, n, calls1 ++ calls2)
  end.

(** The pipeline as the design words it: on each variant the native
    backend first, on that variant's surface, then the fallback backend
    with the baseline and, on failure, once with the permissive
    profile. *)
Definition native_on (env : Env) (s : Surface) : option jsstring :=
  match nativeDetector env with
  | Some detect =>
      match detect s with Some barcodes => native_text barcodes | None => None end
  | None => None
  end.

Definition fallback_on (env : Env) (s : Surface) : option jsstring :=
  match decode env baseline s with
  | Some text => Some text
  | None => decode env permissive s
  end.

Fixpoint per_variant_pipeline (env : Env) (vs : list Variation)
    : option jsstring :=
  match vs with
  | [] => None
  | v :: vs' =>
      match render env v with
      | None => per_variant_pipeline env vs'
      | Some s =>
          match native_on env s with
          | Some text => Some text
          | None =>
              match fallback_on env s with
              | Some text => Some text
              | None => per_variant_pipeline env vs'
              end
          end
      end
  end.

(** The fallback attempt on one variant: its result and its calls. *)
Definition attempt (env : Env) (v : Variation) : option jsstring :=
  match render env v with
  | Some s => fallback_on env s
  | None => None
  end.

Definition attempt_calls (env : Env) (v : Variation) : list Call :=
  match render env v with
  | None => []
  | Some s =>
      match decode env baseline s with
      | Some _ => [ZXingDecode baseline v]
      | None => [ZXingDecode baseline v; ZXingDecode permissive v]
      end
  end.

Definition rendered (env : Env) (v : Variation) : bool :=
  match render env v with Some _ => true | None => false end.

End Decode.

Arguments render {Surface}.
Arguments nativeDetector {Surface}.
Arguments decode {Surface}.
Arguments mkEnv {Surface}.
Arguments native_step {Surface}.
Arguments zxing_loop {Surface}.
Arguments decodeFromFile {Surface}.
Arguments native_on {Surface}.
Arguments fallback_on {Surface}.
Arguments per_variant_pipeline {Surface}.
Arguments attempt {Surface}.
Arguments attempt_calls {Surface}.
Arguments rendered {Surface}.

(** A file on which the native detector finds nothing in the image as
    loaded but would read "1Z999AA10123456784" from an upscaled
    canvas, and on which the fallback decoder reads "0123456789"
    from any upscaled canvas and nothing from the image as loaded.  A
    surface is named by the variation that produces it. *)
Definition upscaled_only : Env Variation :=
  mkEnv (fun v => Some v)
        (Some (fun s =>
                 match s with
                 | CanvasFromFile _ =>
                     Some [mkBarcode (lit "1Z999AA10123456784") (lit "code_128")]
                 | _ => Some []
                 end))
        (fun _ s =>
           match s with
           | CanvasFromFile _ => Some (lit "0123456789")
           | _ => None
           end).

End Orchestrator.

(** ** Pixel transforms: invert, band detection, adaptive threshold *)

Module Transform.

(** The pixels of a canvas as [getImageData] returns them: RGBA bytes
    in row-major order.  The functions below take the pixels of the
    canvas the image was drawn (and, where the script scales, scaled)
    to; drawing and resampling are the browser's. *)
Record ImageData := mkImageData { width : nat; height : nat; data : list Z }.

(** The bytes a Uint8ClampedArray can hold. *)
Definition bytes (d : list Z) : Prop := Forall (fun v => 0 <= v <= 255) d.

(** A store of an integer into a Uint8ClampedArray. *)
Definition clamp8 (v : Z) : Z := Z.max 0 (Z.min 255 v).


(** *** createInvertedCanvas *)

(** The loop [for (i = 0; i < data.length; i += 4)] over the pixels;
    the alpha byte stays. *)
Fixpoint invert_data (d : list Z) : list Z :=
  match d with
  | r :: g :: b :: a :: rest =>
      clamp8 (255 - r) :: clamp8 (255 - g) :: clamp8 (255 - b) :: a
      :: invert_data rest
  | [r; g; b] => [clamp8 (255 - r); clamp8 (255 - g); clamp8 (255 - b)]
  | [r; g] => [clamp8 (255 - r); clamp8 (255 - g)]
  | [r] => [clamp8 (255 - r)]
  | [] => []
  end.

Definition createInvertedCanvas (src : ImageData) : ImageData :=
  mkImageData (width src) (height src) (invert_data (data src)).

(** What Invert is to do to the byte at index [i]. *)
Definition invert_channel (i : nat) (v : Z) : Z :=
  if (i mod 4 =? 3)%nat then v else 255 - v.

(** *** Numbers *)






(** *** detectBarcodeBandFromCanvas *)













(** *** createAdaptiveThresholdCanvas *)
















(** A 2 by 2 image: a black, a white, a grey and a red pixel. *)
Definition sample : ImageData :=
  mkImageData 2 2
    [0; 0; 0; 255;  255; 255; 255; 255;
     128; 128; 128; 255;  255; 0; 0; 128].

End Transform.

(** ** Stability gate: maybeEmit and stopDecoding *)

Module Stability.

Definition STABLE_FRAMES : Z := 3.
Definition COOLDOWN_MS : Z := 900.

(** The module-level variables of the script that [maybeEmit] and
    [stopDecoding] read or write.  [currentStream] and [rafId] hold
    opaque handles; the two [*Disabled] fields are the buttons'
    [disabled] flags and [videoHasSource] is [videoEl.srcObject]
    being non-null. *)
Record Globals := mkGlobals {
  codeReader : bool;            (* ZXing reader initialised *)
  isScanning : bool;
  currentStream : option Z;
  usingNativeDetector : bool;
  rafId : option Z;
  videoHasSource : bool;
  startBtnDisabled : bool;
  stopBtnDisabled : bool;
  (* multi-scan state *)
  lastTracking : option jsstring;
  prevCandidate : option jsstring;
  stableCount : Z;
  cooldownUntil : Z
}.

(** The values the script gives these variables when it is loaded. *)
Definition initial : Globals :=
  mkGlobals false false None false None false true true None None 0 0.

Definition set_stability (g : Globals)
    (lt pc : option jsstring) (sc cu : Z) : Globals :=
  mkGlobals (codeReader g) (isScanning g) (currentStream g)
    (usingNativeDetector g) (rafId g) (videoHasSource g)
    (startBtnDisabled g) (stopBtnDisabled g) lt pc sc cu.

(** [tracking?.number || null]: a missing match and an empty number
    both give null. *)
Definition candidate_of (tracking : option TrackingMatch) : option jsstring :=
  match tracking with
  | Some t => if truthy (number t) then Some (number t) else None
  | None => None
  end.

(** [candidate === x] for a non-null string [candidate] and a variable
    [x] that holds a string or null. *)
Definition same (candidate : jsstring) (x : option jsstring) : bool :=
  match x with Some s => str_eqb candidate s | None => false end.

(** [maybeEmit(tracking, rawText)], with the value [Date.now()] returns
    passed as [now].  The result is the returned boolean, which is true
    exactly when [renderState] was called, and the variables afterwards. *)
Definition maybeEmit (now : Z) (tracking : option TrackingMatch)
    (g : Globals) : bool * Globals :=
  match candidate_of tracking with
  | None => (false, set_stability g (lastTracking g) None 0 (cooldownUntil g))
  | Some candidate =>
      let '(pc, sc) :=
        if same candidate (prevCandidate g)
        then (prevCandidate g, stableCount g + 1)
        else (Some candidate, 1) in
      if (sc >=? STABLE_FRAMES)
         && (negb (same candidate (lastTracking g)) || (now >? cooldownUntil g))
      then (true, set_stability g (Some candidate) pc sc (now + COOLDOWN_MS))
      else (false, set_stability g (lastTracking g) pc sc (cooldownUntil g))
  end.

(** A live session feeds [maybeEmit] one frame after the other; a frame
    is the time it is evaluated at and the extractor's result.  [run]
    returns the emission flags, one per frame, and the final variables. *)
Fixpoint run (frames : list (Z * option TrackingMatch)) (g : Globals)
    : list bool * Globals :=
  match frames with
  | [] => ([], g)
  | (now, t) :: rest =>
      let '(e, g1) := maybeEmit now t g in
      let '(es, g2) := run rest g1 in
      (e :: es, g2)
  end.

(** Where an exception may leave the [try] block of [stopDecoding]:
    [codeReader.reset()] and [track.stop()] are calls into the browser
    and the decoding library. *)
Inductive StopFault := NoFault | ReaderResetThrows | TrackStopThrows.

(** [stopDecoding()].  The [catch] only logs, so a fault skips the
    assignments that follow it. *)
Definition stopDecoding (f : StopFault) (g : Globals) : Globals :=
  let g1 :=
    mkGlobals (codeReader g) (isScanning g) (currentStream g)
      false None (videoHasSource g)
      (startBtnDisabled g) (stopBtnDisabled g)
      (lastTracking g) (prevCandidate g) (stableCount g) (cooldownUntil g) in
  match f, codeReader g && isScanning g, currentStream g with
  | ReaderResetThrows, true, _ => g1
  | TrackStopThrows, _, Some _ => g1
  | _, _, _ =>
      mkGlobals (codeReader g) false None
        false None false
        false true
        (lastTracking g) (prevCandidate g) (stableCount g) (cooldownUntil g)
  end.

(** The length of the run of frames at the end of a session history that
    all carry candidate [c]: the streak the gate is meant to count. *)
Fixpoint trailing_run (c : jsstring) (rev_history : list (option jsstring)) : Z :=
  match rev_history with
  | Some c' :: older => if str_eqb c c' then 1 + trailing_run c older else 0
  | _ => 0
  end.

Definition candidates (frames : list (Z * option TrackingMatch))
    : list (option jsstring) :=
  map (fun f => candidate_of (snd f)) frames.

(** The streak [maybeEmit] holds in [stableCount] once it has counted a
    frame with candidate [c]. *)
Definition streak_after (c : jsstring) (g : Globals) : Z :=
  if same c (prevCandidate g) then stableCount g + 1 else 1.

(** What the gate has to tell a frame's history apart by: the latest
    candidate and how often it was seen in a row. *)
Definition counts_history (g : Globals) (rev_history : list (option jsstring))
    : Prop :=
  match prevCandidate g with
  | Some c => stableCount g = trailing_run c rev_history
              /\ exists older, rev_history = Some c :: older
  | None => rev_history = [] \/ exists older, rev_history = None :: older
  end.

(** A stability state reset in full: no candidate, no streak, nothing
    emitted, and no emission that the cooldown holds back. *)
Definition fully_reset (g : Globals) : Prop :=
  prevCandidate g = None /\ stableCount g = 0 /\ lastTracking g = None
  /\ forall now t c, candidate_of t = Some c ->
       streak_after c g >= STABLE_FRAMES -> fst (maybeEmit now t g) = true.

(** The four variables of the StabilityState, as a tuple. *)
Definition stability_state (g : Globals)
    : option jsstring * Z * option jsstring * Z :=
  (prevCandidate g, stableCount g, lastTracking g, cooldownUntil g).

(** A frame that decoded to the number [c] (under any carrier) and a
    frame the extractor returned null for. *)
Definition frame (now : Z) (k : Carrier) (c : jsstring)
    : Z * option TrackingMatch := (now, Some (mkTracking k c)).
Definition null_frame (now : Z) : Z * option TrackingMatch := (now, None).

(** The variables after "A" was read three times, 400 ms apart, and
    emitted at 800 ms. *)
Definition after_emission : Globals :=
  snd (run [frame 0 USPS (lit "A"); frame 400 USPS (lit "A");
            frame 800 USPS (lit "A")] initial).

End Stability.

(** * Properties *)

(** ** Strings *)

Lemma str_eqb_spec (a b : jsstring) : reflect (a = b) (str_eqb a b).
Proof.
  revert b; induction a as [|x a IH]; intros [|y b]; simpl;
    try (constructor; congruence).
  destruct (Z.eqb_spec x y) as [->|N]; simpl.
  - destruct (IH b) as [->|N]; constructor; congruence.
  - constructor; congruence.
Qed.

Lemma str_eqb_refl (a : jsstring) : str_eqb a a = true.
Proof. destruct (str_eqb_spec a a); congruence. Qed.

(** ** The matcher and the language of a pattern *)

Section RegexFacts.
Import Regex RegexSpec.

Lemma countdown_S (h lo : nat) :
  countdown (S h) lo
  = map S (countdown h (Nat.pred lo))
    ++ match lo with O => [O] | S _ => [] end.
Proof.
  revert lo. induction h as [|h IH]; intros lo.
  - destruct lo as [|[|lo]]; reflexivity.
  - change (countdown (S (S h)) lo)
      with (if (S (S h) <? lo)%nat then [] else S (S h) :: countdown (S h) lo).
    rewrite (IH lo).
    change (countdown (S h) (Nat.pred lo))
      with (if (S h <? Nat.pred lo)%nat then []
            else S h :: countdown h (Nat.pred lo)).
    destruct lo as [|lo]; cbn [Nat.pred].
    + reflexivity.
    + change (S (S h) <? S lo)%nat with (S h <? lo)%nat.
      destruct (S h <? lo)%nat; reflexivity.
Qed.

Lemma in_countdown (hi lo j : nat) :
  In j (countdown hi lo) <-> (lo <= j <= hi)%nat.
Proof.
  induction hi as [|hi IH].
  - cbn [countdown]. destruct (Nat.ltb_spec 0 lo); cbn [In]; lia.
  - change (countdown (S hi) lo)
      with (if (S hi <? lo)%nat then [] else S hi :: countdown hi lo).
    destruct (Nat.ltb_spec (S hi) lo); cbn [In]; [lia|].
    rewrite IH. lia.
Qed.

Lemma rep_eq (ic : bool) (k : cls) (s : jsstring) :
  forall min max p cp,
  rep ic k min max p s cp
  = map (fun j => mkState (p + j) (skipn j s) cp)
        (countdown (reach ic k max s) min).
Proof.
  induction s as [|c s IH]; intros min max p cp.
  - assert (R : reach ic k max [] = O) by (destruct max as [[|m]|]; reflexivity).
    rewrite R. cbn [rep countdown].
    destruct max as [[|m]|]; destruct min; cbn [Nat.ltb Nat.leb map skipn];
      rewrite ?Nat.add_0_r; reflexivity.
  - destruct max as [[|m]|].
    + cbn [rep reach countdown].
      destruct min; cbn [Nat.ltb Nat.leb map skipn];
        rewrite ?Nat.add_0_r; reflexivity.
    + cbn [rep reach option_map Nat.pred].
      destruct (class_match ic k c).
      * rewrite IH, countdown_S, map_app, map_map.
        f_equal.
        -- apply map_ext. intros j. cbn [skipn]. f_equal. lia.
        -- destruct min; cbn [map skipn]; rewrite ?Nat.add_0_r; reflexivity.
      * cbn [countdown].
        destruct min; cbn [Nat.ltb Nat.leb map skipn];
          rewrite ?Nat.add_0_r; reflexivity.
    + cbn [rep reach option_map].
      destruct (class_match ic k c).
      * rewrite IH, countdown_S, map_app, map_map.
        f_equal.
        -- apply map_ext. intros j. cbn [skipn]. f_equal. lia.
        -- destruct min; cbn [map skipn]; rewrite ?Nat.add_0_r; reflexivity.
      * cbn [countdown].
        destruct min; cbn [Nat.ltb Nat.leb map skipn];
          rewrite ?Nat.add_0_r; reflexivity.
Qed.

Lemma reach_spec (ic : bool) (k : cls) (s : jsstring) :
  forall max j,
  (j <= reach ic k max s)%nat <->
  (j <= length s)%nat /\ within max j
  /\ Forall (fun x => class_match ic k x = true) (firstn j s).
Proof.
  induction s as [|c s IH]; intros max j.
  - assert (R : reach ic k max [] = O) by (destruct max as [[|m]|]; reflexivity).
    rewrite R. cbn [length]. split.
    + intros H. assert (j = O) by lia. subst.
      repeat split; [lia | destruct max; cbn; lia | constructor].
    + intros (H & _). lia.
  - destruct j as [|j].
    { split; [|lia]. intros _. cbn [firstn length].
      repeat split; [lia | destruct max; cbn; lia | constructor]. }
    cbn [firstn length].
    destruct max as [[|m]|]; cbn [reach option_map Nat.pred within].
    + split; [lia|]. intros (_ & H & _). lia.
    + destruct (class_match ic k c) eqn:Ec.
      * rewrite <- Nat.succ_le_mono, (IH (Some m) j). cbn [within].
        split.
        -- intros (H1 & H2 & H3). repeat split; try lia. constructor; assumption.
        -- intros (H1 & H2 & H3). inversion H3; subst. repeat split; try lia.
           assumption.
      * split; [lia|]. intros (_ & _ & H). inversion H; congruence.
    + destruct (class_match ic k c) eqn:Ec.
      * rewrite <- Nat.succ_le_mono, (IH None j). cbn [within].
        split.
        -- intros (H1 & H2 & H3). repeat split; try lia. constructor; assumption.
        -- intros (H1 & H2 & H3). inversion H3; subst. repeat split; try lia.
           assumption.
      * split; [lia|]. intros (_ & _ & H). inversion H; congruence.
Qed.

Lemma run_sound (ic : bool) (r : regex) :
  forall st st', In st' (run ic r st) ->
  exists w, rest st = w ++ rest st'
    /\ pos st' = (pos st + length w)%nat
    /\ matches ic r (pos st) w (rest st').
Proof.
  induction r as [|c|k|k min max|r1 IH1 r2 IH2|r1 IH1 r2 IH2|r1 IH1| |];
    intros st st' H; cbn [run] in H.
  - destruct H as [<-|[]]. exists []. cbn [app length matches].
    repeat split; lia.
  - destruct (rest st) as [|x xs] eqn:E; [contradiction|].
    destruct (char_match ic c x) eqn:Em; [|contradiction].
    destruct H as [<-|[]]. exists [x]. cbn [rest pos length app matches].
    repeat split; [lia | eauto].
  - destruct (rest st) as [|x xs] eqn:E; [contradiction|].
    destruct (class_match ic k x) eqn:Em; [|contradiction].
    destruct H as [<-|[]]. exists [x]. cbn [rest pos length app matches].
    repeat split; [lia | eauto].
  - rewrite rep_eq in H. apply in_map_iff in H. destruct H as (j & <- & Hj).
    apply in_countdown in Hj. destruct Hj as [Hmin Hmax].
    apply reach_spec in Hmax. destruct Hmax as (Hlen & Hw & Hall).
    exists (firstn j (rest st)). cbn [rest pos matches].
    rewrite firstn_skipn, length_firstn, Nat.min_l by exact Hlen.
    repeat split; assumption.
  - apply in_flat_map in H. destruct H as (st1 & H1 & H2).
    destruct (IH1 _ _ H1) as (w1 & E1 & P1 & M1).
    destruct (IH2 _ _ H2) as (w2 & E2 & P2 & M2).
    exists (w1 ++ w2). rewrite length_app, E1, E2, <- app_assoc.
    repeat split; [lia|]. cbn [matches]. exists w1, w2.
    rewrite <- E2, <- P1. repeat split; assumption.
  - apply in_app_or in H. destruct H as [H|H].
    + destruct (IH1 _ _ H) as (w & E & P & M). exists w.
      repeat split; try assumption. left; assumption.
    + destruct (IH2 _ _ H) as (w & E & P & M). exists w.
      repeat split; try assumption. right; assumption.
  - apply in_map_iff in H. destruct H as (st1 & <- & H).
    destruct (IH1 _ _ H) as (w & E & P & M). exists w.
    cbn [rest pos matches]. repeat split; assumption.
  - destruct (Nat.eqb_spec (pos st) 0) as [E|E]; [|contradiction].
    destruct H as [<-|[]]. exists []. cbn [app length matches].
    repeat split; try reflexivity; try lia; congruence.
  - destruct (rest st) as [|x xs] eqn:E; [|contradiction].
    destruct H as [<-|[]]. exists []. cbn [app length matches].
    repeat split; try reflexivity; try lia; congruence.
Qed.

Lemma run_complete (ic : bool) (r : regex) :
  forall p w after cp, matches ic r p w after ->
  exists cp', In (mkState (p + length w) after cp')
                 (run ic r (mkState p (w ++ after) cp)).
Proof.
  induction r as [|c|k|k min max|r1 IH1 r2 IH2|r1 IH1 r2 IH2|r1 IH1| |];
    intros p w after cp M; cbn [matches] in M; cbn [run rest pos cap].
  - subst w. exists cp. cbn. rewrite Nat.add_0_r. left; reflexivity.
  - destruct M as (x & -> & Em). cbn [app length]. rewrite Em.
    exists cp. left. f_equal. lia.
  - destruct M as (x & -> & Em). cbn [app length]. rewrite Em.
    exists cp. left. f_equal. lia.
  - destruct M as (Hall & Hmin & Hmax).
    exists cp. rewrite rep_eq. apply in_map_iff. exists (length w).
    split.
    + rewrite skipn_app, skipn_all, Nat.sub_diag. reflexivity.
    + apply in_countdown. split; [exact Hmin|].
      apply reach_spec. rewrite length_app.
      rewrite firstn_app, firstn_all, Nat.sub_diag, firstn_0, app_nil_r.
      repeat split; [lia | exact Hmax | exact Hall].
  - destruct M as (w1 & w2 & -> & M1 & M2).
    destruct (IH1 _ _ _ cp M1) as (cp1 & H1).
    destruct (IH2 _ _ _ cp1 M2) as (cp2 & H2).
    exists cp2. apply in_flat_map.
    exists (mkState (p + length w1) (w2 ++ after) cp1).
    rewrite <- app_assoc. split; [exact H1|].
    rewrite length_app, Nat.add_assoc. exact H2.
  - destruct M as [M|M].
    + destruct (IH1 _ _ _ cp M) as (cp1 & H1). exists cp1.
      apply in_or_app. left; exact H1.
    + destruct (IH2 _ _ _ cp M) as (cp1 & H1). exists cp1.
      apply in_or_app. right; exact H1.
  - destruct (IH1 _ _ _ cp M) as (cp1 & H1).
    eexists. apply in_map_iff. eexists. split; [|exact H1].
    cbn [pos rest]. reflexivity.
  - destruct M as [-> ->]. cbn. exists cp. left; reflexivity.
  - destruct M as [-> ->]. cbn [length app]. rewrite Nat.add_0_r.
    exists cp. left; reflexivity.
Qed.

(** What a match attempt at index [p] returns is a match of the
    pattern there; it returns nothing only if the pattern has no match
    there. *)
Lemma match_at_Some (ic : bool) (r : regex) (p : nat) (s : jsstring)
    (m : MatchResult) :
  match_at ic r p s = Some m ->
  index m = p /\ exists post, s = m0 m ++ post /\ matches ic r p (m0 m) post.
Proof.
  unfold match_at. destruct (run ic r (mkState p s None)) as [|st l] eqn:E;
    [discriminate|].
  intros [= <-]. cbn [index m0]. split; [reflexivity|].
  destruct (run_sound ic r (mkState p s None) st) as (w & Es & Ep & M).
  { rewrite E. left; reflexivity. }
  cbn [rest pos] in *. exists (rest st).
  replace (pos st - p)%nat with (length w) by lia.
  rewrite Es, firstn_app, firstn_all, Nat.sub_diag, firstn_0, app_nil_r.
  split; [reflexivity | exact M].
Qed.

Lemma match_at_None (ic : bool) (r : regex) (p : nat) (s : jsstring) :
  match_at ic r p s = None <->
  forall w post, s = w ++ post -> ~ matches ic r p w post.
Proof.
  unfold match_at. split.
  - destruct (run ic r (mkState p s None)) as [|st l] eqn:E; [|discriminate].
    intros _ w post -> M.
    destruct (run_complete ic r p w post None M) as (cp & H).
    rewrite E in H. exact H.
  - intros H. destruct (run ic r (mkState p s None)) as [|st l] eqn:E;
      [reflexivity|].
    exfalso.
    destruct (run_sound ic r (mkState p s None) st) as (w & Es & Ep & M).
    { rewrite E. left; reflexivity. }
    exact (H w (rest st) Es M).
Qed.

Lemma match_at_group (ic : bool) (r : regex) (p : nat) (s : jsstring)
    (m : MatchResult) :
  match_at ic (Grp r) p s = Some m -> m1 m = Some (m0 m).
Proof.
  unfold match_at. cbn [run].
  destruct (run ic r (mkState p s None)) as [|st l]; [discriminate|].
  cbn [map pos rest]. intros [= <-]. reflexivity.
Qed.

(** The search returns the match attempt at the first index that has
    one. *)
Lemma search_Some (ic : bool) (r : regex) (s : jsstring) :
  forall p m, search ic r p s = Some m ->
  exists n, (n <= length s)%nat
    /\ match_at ic r (p + n) (skipn n s) = Some m
    /\ forall i, (i < n)%nat -> match_at ic r (p + i) (skipn i s) = None.
Proof.
  induction s as [|c s IH]; intros p m H; cbn [search] in H.
  - destruct (match_at ic r p []) eqn:E; [|discriminate].
    exists O. rewrite Nat.add_0_r. cbn [skipn length].
    repeat split; [lia | congruence | lia].
  - destruct (match_at ic r p (c :: s)) eqn:E.
    + exists O. rewrite Nat.add_0_r. cbn [skipn].
      repeat split; [lia | congruence | lia].
    + destruct (IH _ _ H) as (n & Hn & Hm & Hl).
      exists (S n). cbn [skipn length].
      rewrite <- Nat.add_succ_comm. repeat split; [lia | exact Hm |].
      intros [|i] Hi.
      * rewrite Nat.add_0_r. exact E.
      * rewrite <- Nat.add_succ_comm. apply Hl. lia.
Qed.

Lemma search_None (ic : bool) (r : regex) (s : jsstring) :
  forall p, search ic r p s = None <->
  forall i, (i <= length s)%nat -> match_at ic r (p + i) (skipn i s) = None.
Proof.
  induction s as [|c s IH]; intros p; cbn [search].
  - destruct (match_at ic r p []) eqn:E.
    + split; [discriminate|]. intros H. specialize (H O (Nat.le_0_l _)).
      rewrite Nat.add_0_r in H. cbn [skipn] in H. congruence.
    + split; [|reflexivity]. intros _ i Hi. cbn [length] in Hi.
      assert (i = O) by lia. subst. rewrite Nat.add_0_r. exact E.
  - destruct (match_at ic r p (c :: s)) eqn:E.
    + split; [discriminate|]. intros H. specialize (H O (Nat.le_0_l _)).
      rewrite Nat.add_0_r in H. cbn [skipn] in H. congruence.
    + rewrite IH. split.
      * intros H [|i] Hi.
        -- rewrite Nat.add_0_r. exact E.
        -- rewrite <- Nat.add_succ_comm. apply H. cbn [length] in Hi. lia.
      * intros H i Hi. specialize (H (S i)). cbn [skipn length] in H.
        rewrite <- Nat.add_succ_comm in H. apply H. lia.
Qed.

Lemma split_at (n : nat) (s : jsstring) :
  (n <= length s)%nat ->
  s = firstn n s ++ skipn n s /\ length (firstn n s) = n.
Proof.
  intros H. rewrite firstn_skipn, length_firstn, Nat.min_l by exact H.
  split; reflexivity.
Qed.

Lemma skipn_prefix (pre rest : jsstring) :
  skipn (length pre) (pre ++ rest) = rest.
Proof. rewrite skipn_app, skipn_all, Nat.sub_diag. reflexivity. Qed.

(** [exec] returns the first match, in the order of the start index,
    of the pattern in the text. *)
Lemma exec_Some (re : RegExp) (text : jsstring) (m : MatchResult) :
  exec re text = Some m ->
  exists pre post,
    text = pre ++ m0 m ++ post
    /\ index m = length pre
    /\ match_at (ignoreCase re) (source re) (length pre) (m0 m ++ post)
       = Some m
    /\ matches (ignoreCase re) (source re) (length pre) (m0 m) post
    /\ forall pre' w' post',
         text = pre' ++ w' ++ post' -> (length pre' < length pre)%nat ->
         ~ matches (ignoreCase re) (source re) (length pre') w' post'.
Proof.
  unfold exec. intros H.
  destruct (search_Some _ _ _ _ _ H) as (n & Hn & Hm & Hl).
  cbn [Nat.add] in Hm.
  destruct (match_at_Some _ _ _ _ _ Hm) as (Hi & post & Es & M).
  destruct (split_at n text Hn) as [Et El].
  exists (firstn n text), post. rewrite El, <- Es.
  repeat split; try assumption.
  intros pre' w' post' E' Hlt M'.
  specialize (Hl (length pre') Hlt). cbn [Nat.add] in Hl.
  rewrite E', skipn_prefix in Hl.
  exact (proj1 (match_at_None _ _ _ _) Hl w' post' eq_refl M').
Qed.

Lemma exec_None (re : RegExp) (text : jsstring) :
  exec re text = None <-> ~ matches_in re text.
Proof.
  unfold exec, matches_in. rewrite search_None. split.
  - intros H (pre & w & post & -> & M).
    specialize (H (length pre)). cbn [Nat.add] in H.
    rewrite skipn_prefix in H.
    refine (proj1 (match_at_None _ _ _ _) (H _) w post eq_refl M).
    rewrite length_app. lia.
  - intros H i Hi. cbn [Nat.add]. apply match_at_None.
    intros w post E M. apply H.
    destruct (split_at i text Hi) as [Et El].
    exists (firstn i text), w, post. rewrite El, <- E. split; assumption.
Qed.

Lemma test_true (re : RegExp) (text : jsstring) :
  test re text = true <-> matches_in re text.
Proof.
  unfold test. destruct (exec re text) as [m|] eqn:E.
  - split; [|reflexivity]. intros _.
    destruct (exec_Some _ _ _ E) as (pre & post & Et & _ & _ & M & _).
    exists pre, (m0 m), post. split; assumption.
  - split; [discriminate|]. intros H.
    apply exec_None in E. contradiction.
Qed.

Lemma matches_anchored_start (ic : bool) (r : regex) (p : nat)
    (w post : jsstring) :
  anchored_start r = true -> matches ic r p w post -> p = O.
Proof.
  destruct r as [| | | |r1 r2| | | |]; try discriminate.
  - destruct r1; try discriminate. intros _ (w1 & w2 & _ & (_ & E) & _).
    exact E.
  - intros _ (_ & E). exact E.
Qed.

Lemma matches_anchored_end (ic : bool) (r : regex) :
  forall p w post,
  anchored_end r = true -> matches ic r p w post -> post = [].
Proof.
  induction r as [| | | |r1 IH1 r2 IH2| | | |]; intros p w post A M;
    try discriminate.
  - destruct M as (w1 & w2 & -> & M1 & M2).
    destruct r2; cbn [anchored_end] in A;
      try (exact (IH2 _ _ _ A M2)).
    cbn [matches] in M2. subst w2. exact (IH1 _ _ _ A M1).
  - destruct M as [_ E]. exact E.
Qed.

(** A pattern written [^...$] matches in a text only as a whole. *)
Lemma anchored_matches_in (re : RegExp) (text : jsstring) :
  anchored_start (source re) = true -> anchored_end (source re) = true ->
  (matches_in re text <-> matches_whole re text).
Proof.
  intros As Ae. unfold matches_in, matches_whole. split.
  - intros (pre & w & post & -> & M).
    pose proof (matches_anchored_start _ _ _ _ _ As M) as Hp.
    pose proof (matches_anchored_end _ _ _ _ _ Ae M) as He.
    destruct pre; [|discriminate]. subst post.
    cbn [app length] in *. rewrite app_nil_r. exact M.
  - intros M. exists [], text, []. cbn [app length].
    rewrite app_nil_r. split; [reflexivity|exact M].
Qed.

Lemma anchored_exec (re : RegExp) (text : jsstring) (m : MatchResult) :
  anchored_start (source re) = true -> anchored_end (source re) = true ->
  exec re text = Some m ->
  index m = O /\ m0 m = text /\ matches_whole re text.
Proof.
  intros As Ae E.
  destruct (exec_Some _ _ _ E) as (pre & post & Et & Hi & _ & M & _).
  pose proof (matches_anchored_start _ _ _ _ _ As M) as Hp.
  pose proof (matches_anchored_end _ _ _ _ _ Ae M) as He.
  destruct pre; [|discriminate]. subst post.
  cbn [app length] in *. rewrite app_nil_r in Et. subst text.
  repeat split; assumption.
Qed.

End RegexFacts.

(** ** Tracking number extractor *)

Section TrackingFacts.
Import Regex RegexSpec Tracking TrackingSpec.

Lemma table_is_priority :
  trackingPatterns = map (fun c => (c, pattern c)) priority.
Proof. reflexivity. Qed.

Lemma pattern_anchored (c : Carrier) :
  anchored_start (source (pattern c)) = true
  /\ anchored_end (source (pattern c)) = true.
Proof. destruct c; split; reflexivity. Qed.

Lemma exec_pattern_Some (c : Carrier) (s : jsstring) (m : MatchResult) :
  exec (pattern c) s = Some m -> m0 m = s /\ fully_matches c s.
Proof.
  intros E. destruct (pattern_anchored c) as [As Ae].
  destruct (anchored_exec _ _ _ As Ae E) as (_ & H1 & H2).
  split; assumption.
Qed.

Lemma exec_pattern_None (c : Carrier) (s : jsstring) :
  exec (pattern c) s = None -> ~ fully_matches c s.
Proof.
  intros E M. destruct (pattern_anchored c) as [As Ae].
  apply exec_None in E. apply E.
  apply (anchored_matches_in _ _ As Ae). exact M.
Qed.

Lemma test_pattern (c : Carrier) (s : jsstring) :
  test (pattern c) s = true <-> fully_matches c s.
Proof.
  destruct (pattern_anchored c) as [As Ae].
  rewrite test_true. apply (anchored_matches_in _ _ As Ae).
Qed.

(** The loop over the table returns the first carrier in priority
    order whose pattern the whole string matches, with the string. *)
Lemma first_pattern_Some (s : jsstring) (t : TrackingMatch) :
  first_pattern trackingPatterns s = Some t ->
  first_carrier (carrier t) s /\ number t = s.
Proof.
  unfold trackingPatterns, first_pattern.
  change UPS_re with (pattern UPS). change FedEx_re with (pattern FedEx).
  change USPS_re with (pattern USPS). change DHL_re with (pattern DHL).
  change Amazon_re with (pattern Amazon).
  change OnTrac_re with (pattern OnTrac).
  destruct (exec (pattern UPS) s) as [m|] eqn:E1;
  [|destruct (exec (pattern FedEx) s) as [m|] eqn:E2;
  [|destruct (exec (pattern USPS) s) as [m|] eqn:E3;
  [|destruct (exec (pattern DHL) s) as [m|] eqn:E4;
  [|destruct (exec (pattern Amazon) s) as [m|] eqn:E5;
  [|destruct (exec (pattern OnTrac) s) as [m|] eqn:E6;
  [|discriminate]]]]]];
  intros [= <-]; cbn [carrier number];
  match goal with
  | E : exec (pattern ?c) s = Some m |- _ =>
      destruct (exec_pattern_Some c s m E) as [H0 HM]
  end;
  (split; [split; [exact HM|] | exact H0]);
  intros c' Hr; destruct c'; cbn [rank] in Hr; try lia;
  apply exec_pattern_None; assumption.
Qed.

Lemma first_pattern_None (s : jsstring) :
  first_pattern trackingPatterns s = None -> no_carrier s.
Proof.
  unfold trackingPatterns, first_pattern.
  change UPS_re with (pattern UPS). change FedEx_re with (pattern FedEx).
  change USPS_re with (pattern USPS). change DHL_re with (pattern DHL).
  change Amazon_re with (pattern Amazon).
  change OnTrac_re with (pattern OnTrac).
  destruct (exec (pattern UPS) s) as [m|] eqn:E1; [discriminate|].
  destruct (exec (pattern FedEx) s) as [m|] eqn:E2; [discriminate|].
  destruct (exec (pattern USPS) s) as [m|] eqn:E3; [discriminate|].
  destruct (exec (pattern DHL) s) as [m|] eqn:E4; [discriminate|].
  destruct (exec (pattern Amazon) s) as [m|] eqn:E5; [discriminate|].
  destruct (exec (pattern OnTrac) s) as [m|] eqn:E6; [discriminate|].
  intros _ c. destruct c; apply exec_pattern_None; assumption.
Qed.

(** *** Pass 2: [text.replace(/\s+/g, '')] removes the white space *)

Lemma countdown_head (hi lo : nat) :
  (lo <= hi)%nat -> exists l, countdown hi lo = hi :: l.
Proof.
  intros H. destruct hi as [|hi]; cbn [countdown].
  - destruct (Nat.ltb_spec 0 lo); [lia|]. eauto.
  - destruct (Nat.ltb_spec (S hi) lo); [lia|]. eauto.
Qed.

Lemma countdown_nil (hi lo : nat) : (hi < lo)%nat -> countdown hi lo = [].
Proof.
  intros H. apply Nat.ltb_lt in H.
  destruct hi as [|hi]; cbn [countdown]; rewrite H; reflexivity.
Qed.

Lemma reach_le_length (ic : bool) (k : cls) (max : option nat)
    (s : jsstring) : (reach ic k max s <= length s)%nat.
Proof. apply (reach_spec ic k s max (reach ic k max s)). lia. Qed.

(** A greedy quantifier alone: the match attempt takes the longest run
    the quantifier allows, if that reaches its lower bound. *)
Lemma match_at_rep (ic : bool) (k : cls) (min : nat) (max : option nat)
    (p : nat) (s : jsstring) :
  match_at ic (Rep k min max) p s
  = if (reach ic k max s <? min)%nat then None
    else Some (mkMatch p (firstn (reach ic k max s) s) None).
Proof.
  unfold match_at. cbn [run pos rest cap]. rewrite rep_eq.
  destruct (Nat.ltb_spec (reach ic k max s) min) as [H|H].
  - rewrite countdown_nil by exact H. reflexivity.
  - destruct (countdown_head _ _ H) as (l & ->). cbn [map pos cap].
    do 3 f_equal. lia.
Qed.

Lemma match_at_grp_rep (ic : bool) (k : cls) (min : nat) (max : option nat)
    (p : nat) (s : jsstring) :
  match_at ic (Grp (Rep k min max)) p s
  = if (reach ic k max s <? min)%nat then None
    else Some (mkMatch p (firstn (reach ic k max s) s)
                 (Some (firstn (reach ic k max s) s))).
Proof.
  unfold match_at. cbn [run pos rest cap]. rewrite rep_eq.
  destruct (Nat.ltb_spec (reach ic k max s) min) as [H|H].
  - rewrite countdown_nil by exact H. reflexivity.
  - destruct (countdown_head _ _ H) as (l & ->). cbn [map pos cap rest].
    replace (p + reach ic k max s - p)%nat with (reach ic k max s) by lia.
    reflexivity.
Qed.

Lemma reach_head_false (k : cls) (c : Z) (s : jsstring) :
  in_cls k c = false -> reach false k None (c :: s) = O.
Proof. intros H. cbn [reach class_match]. rewrite H. reflexivity. Qed.

Lemma reach_zero (k : cls) (s : jsstring) :
  reach false k None s = O ->
  match s with [] => True | c :: _ => in_cls k c = false end.
Proof.
  destruct s as [|c s]; [trivial|]. cbn [reach class_match].
  destruct (in_cls k c); [discriminate|reflexivity].
Qed.

Lemma remove_whitespace_app (a b : jsstring) :
  remove_whitespace (a ++ b) = remove_whitespace a ++ remove_whitespace b.
Proof. apply filter_app. Qed.

Lemma remove_whitespace_spaces (ws : jsstring) :
  Forall is_space ws -> remove_whitespace ws = [].
Proof.
  induction 1 as [|c ws Hc _ IH]; [reflexivity|].
  cbn [remove_whitespace filter]. unfold is_space in Hc. rewrite Hc.
  exact IH.
Qed.

Lemma remove_whitespace_none (s : jsstring) :
  Forall (fun c => in_cls space c = false) s -> remove_whitespace s = s.
Proof.
  induction 1 as [|c s Hc _ IH]; [reflexivity|].
  cbn [remove_whitespace filter]. rewrite Hc. cbn [negb]. f_equal. exact IH.
Qed.

Lemma remove_whitespace_split3 (s : jsstring) (n j : nat) :
  remove_whitespace s
  = remove_whitespace (firstn n s)
    ++ remove_whitespace (firstn j (skipn n s))
    ++ remove_whitespace (skipn (n + j) s).
Proof.
  rewrite <- !remove_whitespace_app. f_equal.
  rewrite (Nat.add_comm n j), <- skipn_skipn, !firstn_skipn. reflexivity.
Qed.

Lemma no_space_before (s : jsstring) :
  forall n, (n <= length s)%nat ->
  (forall i, (i < n)%nat -> reach false space None (skipn i s) = O) ->
  Forall (fun c => in_cls space c = false) (firstn n s).
Proof.
  induction s as [|c s IH]; intros n Hn H.
  - rewrite firstn_nil. constructor.
  - destruct n as [|n]; [constructor|]. cbn [firstn]. constructor.
    + exact (reach_zero space (c :: s) (H O (Nat.lt_0_succ _))).
    + apply IH; [cbn [length] in Hn; lia|].
      intros i Hi. apply (H (S i)). lia.
Qed.

Lemma replace_from_spaces (fuel : nat) :
  forall p s, (length s < fuel)%nat ->
  replace_from fuel spaces_re [] p s = remove_whitespace s.
Proof.
  induction fuel as [|fuel IH]; intros p s Hf; [lia|].
  cbn [replace_from spaces_re source ignoreCase].
  destruct (search false (Rep space 1 None) p s) as [m|] eqn:E.
  - destruct (search_Some _ _ _ _ _ E) as (n & Hn & Hm & Hl).
    rewrite match_at_rep in Hm.
    destruct (Nat.ltb_spec (reach false space None (skipn n s)) 1)
      as [Hr|Hr]; [discriminate|].
    injection Hm as <-. cbn [index m0].
    set (j := reach false space None (skipn n s)) in *.
    assert (Hj : (j <= length (skipn n s))%nat) by apply reach_le_length.
    replace (p + n - p)%nat with n by lia.
    rewrite length_firstn, Nat.min_l by exact Hj.
    destruct j as [|j'] eqn:Ej; [lia|]. rewrite <- Ej in *.
    cbn [app]. rewrite IH.
    2:{ rewrite length_skipn. rewrite length_skipn in Hj. lia. }
    rewrite (remove_whitespace_split3 s n j).
    rewrite (remove_whitespace_none (firstn n s)).
    2:{ apply no_space_before; [exact Hn|]. intros i Hi.
        specialize (Hl i Hi). rewrite match_at_rep in Hl.
        destruct (Nat.ltb_spec (reach false space None (skipn i s)) 1);
          [lia|discriminate]. }
    rewrite (remove_whitespace_spaces (firstn j (skipn n s))).
    2:{ apply (reach_spec false space (skipn n s) None j). subst j. lia. }
    reflexivity.
  - symmetry. apply remove_whitespace_none.
    rewrite <- (firstn_all s).
    apply no_space_before; [lia|].
    intros i Hi. pose proof (proj1 (search_None _ _ _ _) E i) as H.
    rewrite match_at_rep in H.
    destruct (Nat.ltb_spec (reach false space None (skipn i s)) 1);
      [lia|]. discriminate H. lia.
Qed.

Lemma replace_all_spaces (text : jsstring) :
  replace_all spaces_re [] text = remove_whitespace text.
Proof. apply replace_from_spaces. lia. Qed.

(** *** Pass 4: a run of 20 to 22 digits *)

Lemma matches_longNumber (p : nat) (w post : jsstring) :
  matches false (source longNumber_re) p w post <-> long_digit_run w.
Proof.
  unfold long_digit_run. cbn [longNumber_re source matches within].
  change (fun x => class_match false digit x = true) with is_digit.
  split; intros (H1 & H2); repeat split; try assumption; lia.
Qed.

Lemma occurs_matches_in (re : RegExp) (P : jsstring -> Prop) :
  (forall p w post,
     matches (ignoreCase re) (source re) p w post <-> P w) ->
  forall text, matches_in re text <-> occurs P text.
Proof.
  intros H text. unfold matches_in, occurs. split.
  - intros (pre & w & post & E & M). exists pre, w, post.
    split; [exact E | exact (proj1 (H _ _ _) M)].
  - intros (pre & w & post & E & M). exists pre, w, post.
    split; [exact E | exact (proj2 (H _ _ _) M)].
Qed.

Lemma exec_longNumber_Some (text : jsstring) (m : MatchResult) :
  exec longNumber_re text = Some m ->
  first_occurrence long_digit_run text (group1 m).
Proof.
  intros E.
  destruct (exec_Some _ _ _ E) as (pre & post & Et & Hi & Hm & M & Hl).
  cbn [longNumber_re source ignoreCase] in Hm.
  rewrite match_at_grp_rep in Hm.
  destruct (_ <? _)%nat; [discriminate|].
  assert (G : group1 m = m0 m) by (injection Hm as <-; reflexivity).
  assert (L : length (m0 m)
              = reach false digit (Some 22%nat) (m0 m ++ post)).
  { injection Hm as Hm. rewrite <- Hm at 1. cbn [m0].
    rewrite length_firstn. apply Nat.min_l, reach_le_length. }
  rewrite G. exists pre, post. split; [exact Et|].
  split; [exact (proj1 (matches_longNumber (length pre) _ post) M)|]. split.
  - intros pre' n' post' E' P'.
    destruct (Nat.le_gt_cases (length pre) (length pre')) as [?|Hlt];
      [assumption|].
    exfalso. apply (Hl pre' n' post' E' Hlt).
    apply matches_longNumber. exact P'.
  - intros n' post' E' (Hd & Hlen). rewrite L. apply reach_spec.
    rewrite E', length_app.
    rewrite firstn_app, firstn_all, Nat.sub_diag, firstn_0, app_nil_r.
    cbn [within]. repeat split; [lia | lia | exact Hd].
Qed.

Lemma exec_longNumber_None (text : jsstring) :
  exec longNumber_re text = None -> ~ occurs long_digit_run text.
Proof.
  intros E H. apply exec_None in E. apply E.
  apply (occurs_matches_in longNumber_re long_digit_run); [|exact H].
  intros. apply matches_longNumber.
Qed.

(** *** Pass 3: the 4-4-4-4-4-4-2 groups *)

Lemma digit_not_space (c : Z) : is_digit c -> is_space c -> False.
Proof.
  unfold is_digit, is_space, in_cls, digit, space.
  cbn [existsb fst snd]. rewrite orb_false_r, andb_true_iff.
  intros [H1 H2]. apply Z.leb_le in H1. apply Z.leb_le in H2.
  repeat match goal with
  | |- context [(?a <=? c)] =>
      first [ replace (a <=? c) with false by (symmetry; apply Z.leb_gt; lia)
            | replace (a <=? c) with true by (symmetry; apply Z.leb_le; lia) ]
  | |- context [(c <=? ?b)] =>
      first [ replace (c <=? b) with false by (symmetry; apply Z.leb_gt; lia)
            | replace (c <=? b) with true by (symmetry; apply Z.leb_le; lia) ]
  end.
  cbn [andb orb]. discriminate.
Qed.

Lemma matches_spaced (sizes : list nat) :
  sizes <> [] ->
  forall p w post,
  matches false (spaced_regex sizes) p w post <-> spaced sizes w.
Proof.
  induction sizes as [|k sizes IH]; [congruence|]. intros _ p w post.
  destruct sizes as [|k' sizes].
  - cbn [spaced_regex spaced matches exactly within]. unfold digits.
    change (fun x => class_match false digit x = true) with is_digit.
    split.
    + intros (w1 & w2 & -> & (Hd & H1 & H2) & ->). rewrite app_nil_r.
      split; [lia|exact Hd].
    + intros (Hl & Hd). exists w, []. rewrite app_nil_r.
      repeat split; try assumption; lia.
  - assert (N : k' :: sizes <> []) by congruence.
    change (spaced_regex (k :: k' :: sizes))
      with (Seq (exactly digit k)
              (Seq (Rep space 1 None) (spaced_regex (k' :: sizes)))).
    change (spaced (k :: k' :: sizes) w)
      with (exists g ws s', w = g ++ ws ++ s'
              /\ digits k g /\ ws <> [] /\ Forall is_space ws
              /\ spaced (k' :: sizes) s').
    cbn [matches exactly within]. unfold digits.
    change (fun x => class_match false digit x = true) with is_digit.
    change (fun x => class_match false space x = true) with is_space.
    split.
    + intros (g & w2 & -> & (Hd & H1 & H2) & ws & s' & -> & (Hs & H3 & _) & M).
      exists g, ws, s'. split; [reflexivity|]. split; [split; [lia|exact Hd]|].
      split; [destruct ws; [cbn in H3; lia | congruence]|].
      split; [exact Hs|]. exact (proj1 (IH N _ _ _) M).
    + intros (g & ws & s' & -> & (Hl & Hd) & Hn & Hs & M).
      exists g, (ws ++ s'). split; [reflexivity|].
      split; [repeat split; try assumption; lia|].
      exists ws, s'. split; [reflexivity|].
      split; [repeat split; [exact Hs | destruct ws; [congruence|cbn; lia]]|].
      apply (IH N). exact M.
Qed.

Lemma matches_uspsSpaced (p : nat) (w post : jsstring) :
  matches false (source uspsSpaced_re) p w post <-> usps_spaced w.
Proof.
  change (source uspsSpaced_re)
    with (Grp (spaced_regex [4; 4; 4; 4; 4; 4; 2]%nat)).
  cbn [matches]. apply matches_spaced. discriminate.
Qed.

Lemma app_same_length (a a' b b' : jsstring) :
  length a = length a' -> a ++ b = a' ++ b' -> a = a' /\ b = b'.
Proof.
  revert a'; induction a as [|x a IH]; intros [|x' a'] L E;
    try discriminate.
  - split; [reflexivity|exact E].
  - cbn [app] in E. injection E as -> E. injection L as L.
    destruct (IH _ L E) as [-> ->]. split; reflexivity.
Qed.

Lemma spaced_starts_with_digit (sizes : list nat) (s : jsstring) :
  Forall (fun k => (1 <= k)%nat) sizes -> spaced sizes s ->
  exists d r, s = d :: r /\ is_digit d.
Proof.
  destruct sizes as [|k sizes]; [contradiction|].
  intros HF. inversion HF as [|? ? Hk _]; subst.
  assert (D : forall g, digits k g -> exists d r, g = d :: r /\ is_digit d).
  { intros g [Hl Hd]. destruct g as [|d r]; [cbn in Hl; lia|].
    inversion Hd; subst. eauto. }
  destruct sizes as [|k' sizes]; cbn [spaced].
  - apply D.
  - intros (g & ws & s' & -> & Hg & _).
    destruct (D g Hg) as (d & r & -> & Hd). cbn [app]. eauto.
Qed.

Lemma space_run_unique (ws : jsstring) :
  forall ws' a a',
  Forall is_space ws -> Forall is_space ws' ->
  (exists d r, a = d :: r /\ is_digit d) ->
  (exists d r, a' = d :: r /\ is_digit d) ->
  ws ++ a = ws' ++ a' -> ws = ws' /\ a = a'.
Proof.
  induction ws as [|c ws IH]; intros ws' a a' Hs Hs' Ha Ha' E.
  - destruct ws' as [|c' ws']; [split; [reflexivity|exact E]|].
    exfalso. destruct Ha as (d & r & -> & Hd). cbn [app] in E.
    injection E as -> _. inversion Hs'; subst.
    eapply digit_not_space; eassumption.
  - destruct ws' as [|c' ws'].
    + exfalso. destruct Ha' as (d & r & -> & Hd). cbn [app] in E.
      injection E as -> _. inversion Hs; subst.
      eapply digit_not_space; eassumption.
    + cbn [app] in E. injection E as -> E.
      inversion Hs; inversion Hs'; subst.
      destruct (IH ws' a a') as [-> ->]; try assumption.
      split; reflexivity.
Qed.

(** From a given start there is one way at most to read the groups. *)
Lemma spaced_unique (sizes : list nat) :
  Forall (fun k => (1 <= k)%nat) sizes ->
  forall n n' post post',
  spaced sizes n -> spaced sizes n' -> n ++ post = n' ++ post' -> n = n'.
Proof.
  induction sizes as [|k sizes IH]; intros HF n n' post post' S S' E;
    [contradiction|].
  inversion HF as [|? ? Hk HF']; subst.
  destruct sizes as [|k' sizes].
  - cbn [spaced] in S, S'. destruct S as [L _], S' as [L' _].
    apply (app_same_length n n' post post'); congruence.
  - change (exists g ws s', n = g ++ ws ++ s'
              /\ digits k g /\ ws <> [] /\ Forall is_space ws
              /\ spaced (k' :: sizes) s') in S.
    change (exists g ws s', n' = g ++ ws ++ s'
              /\ digits k g /\ ws <> [] /\ Forall is_space ws
              /\ spaced (k' :: sizes) s') in S'.
    destruct S as (g & ws & s1 & -> & [L _] & _ & Hs & S).
    destruct S' as (g' & ws' & s1' & -> & [L' _] & _ & Hs' & S').
    rewrite <- !app_assoc in E.
    destruct (app_same_length g g' _ _ (eq_trans L (eq_sym L')) E)
      as [-> E1].
    pose proof (spaced_starts_with_digit _ _ HF' S) as (d & r & Ed & Hd).
    pose proof (spaced_starts_with_digit _ _ HF' S') as (d' & r' & Ed' & Hd').
    destruct (space_run_unique ws ws' (s1 ++ post) (s1' ++ post'))
      as [-> E2]; try assumption.
    { exists d, (r ++ post). rewrite Ed. split; [reflexivity|exact Hd]. }
    { exists d', (r' ++ post'). rewrite Ed'. split; [reflexivity|exact Hd']. }
    rewrite (IH HF' s1 s1' post post' S S' E2). reflexivity.
Qed.

Lemma exec_uspsSpaced_Some (text : jsstring) (m : MatchResult) :
  exec uspsSpaced_re text = Some m ->
  first_occurrence usps_spaced text (group1 m).
Proof.
  intros E.
  destruct (exec_Some _ _ _ E) as (pre & post & Et & Hi & Hm & M & Hl).
  assert (G : group1 m = m0 m).
  { unfold group1. rewrite (match_at_group _ _ _ _ _ Hm). reflexivity. }
  apply matches_uspsSpaced in M.
  rewrite G. exists pre, post. split; [exact Et|]. split; [exact M|]. split.
  - intros pre' n' post' E' P'.
    destruct (Nat.le_gt_cases (length pre) (length pre')) as [?|Hlt];
      [assumption|].
    exfalso. apply (Hl pre' n' post' E' Hlt).
    apply matches_uspsSpaced. exact P'.
  - intros n' post' E' P'.
    rewrite (spaced_unique [4; 4; 4; 4; 4; 4; 2]%nat) with (n := m0 m)
      (n' := n') (post := post) (post' := post'); try assumption; [lia|].
    repeat constructor.
Qed.

Lemma exec_uspsSpaced_None (text : jsstring) :
  exec uspsSpaced_re text = None -> ~ occurs usps_spaced text.
Proof.
  intros E H. apply exec_None in E. apply E.
  apply (occurs_matches_in uspsSpaced_re usps_spaced); [|exact H].
  intros. apply matches_uspsSpaced.
Qed.

Lemma pickTracking_cases (text : jsstring) :
  match pickTracking text with
  | Some t => pass1 text t \/ pass2 text t \/ pass3 text t \/ pass4 text t
  | None => no_pass text
  end.
Proof.
  unfold pickTracking. rewrite replace_all_spaces.
  destruct (first_pattern trackingPatterns text) as [t|] eqn:E1.
  { left. apply first_pattern_Some, E1. }
  apply first_pattern_None in E1.
  destruct (first_pattern trackingPatterns (remove_whitespace text))
    as [t|] eqn:E2.
  { right; left. destruct (first_pattern_Some _ _ E2) as [H1 H2].
    split; [exact E1|]. split; assumption. }
  apply first_pattern_None in E2.
  destruct (exec uspsSpaced_re text) as [m3|] eqn:E3.
  { right; right; left.
    split; [exact E1|]. split; [exact E2|]. split; [reflexivity|].
    apply exec_uspsSpaced_Some, E3. }
  apply exec_uspsSpaced_None in E3.
  destruct (exec longNumber_re text) as [m4|] eqn:E4.
  { right; right; right.
    split; [exact E1|]. split; [exact E2|]. split; [exact E3|].
    split; [reflexivity|]. apply exec_longNumber_Some, E4. }
  apply exec_longNumber_None in E4.
  split; [exact E1|]. split; [exact E2|]. split; assumption.
Qed.

(** C1. [pickTracking] goes through four passes and returns at the
    first that hits: (1) the carrier table, in the priority order UPS,
    FedEx, USPS, DHL, Amazon, OnTrac, on the raw text, each pattern
    matching the whole string only; (2) the same on the text with all
    white space removed; (3) the first piece of the text made of digit
    groups 4-4-4-4-4-4-2 with one or more white-space characters (the
    class [\s]) between them, as USPS; (4) the first run
    of 20 to 22 digits in the text, the longest from where it starts,
    as USPS.  It returns null exactly when no pass matches. *)
Theorem pickTracking_four_passes (text : jsstring) :
  map fst trackingPatterns = priority
  /\ match pickTracking text with
     | Some t => pass1 text t \/ pass2 text t \/ pass3 text t \/ pass4 text t
     | None => no_pass text
     end
  /\ (pickTracking text = None <-> no_pass text).
Proof.
  split; [reflexivity|].
  pose proof (pickTracking_cases text) as Main.
  split; [exact Main|].
  destruct (pickTracking text) as [t|]; [|tauto].
  split; [discriminate|]. intros (N1 & N2 & N3 & N4). exfalso.
  destruct Main as [[[M _] _]|[(_ & [M _] & _)|[(_ & _ & _ & F)|(_ & _ & _ & _ & F)]]].
  - exact (N1 _ M).
  - exact (N2 _ M).
  - destruct F as (pre & post & E & P & _). apply N3.
    exists pre, (number t), post. split; assumption.
  - destruct F as (pre & post & E & P & _). apply N4.
    exists pre, (number t), post. split; assumption.
Qed.

(** The sample numbers of the carriers, and a 22-digit USPS number
    written in groups of four, which pass 2 reads. *)
Example pickTracking_samples :
  pickTracking (lit "1Z999AA10123456784")
    = Some (mkTracking UPS (lit "1Z999AA10123456784"))
  /\ pickTracking (lit "123456789012345")
     = Some (mkTracking FedEx (lit "123456789012345"))
  /\ pickTracking (lit "9400100000000000000000")
     = Some (mkTracking USPS (lit "9400100000000000000000"))
  /\ pickTracking (lit "1234567890")
     = Some (mkTracking DHL (lit "1234567890"))
  /\ pickTracking (lit "TBA123456789012")
     = Some (mkTracking Amazon (lit "TBA123456789012"))
  /\ pickTracking (lit "C12345678901234")
     = Some (mkTracking OnTrac (lit "C12345678901234"))
  /\ pickTracking (lit "9400 1000 0000 0000 0000 00")
     = Some (mkTracking USPS (lit "9400100000000000000000"))
  /\ pickTracking (lit "no number here") = None.
Proof. repeat split; vm_compute; reflexivity. Qed.

(** *** What the returned number matches *)

Lemma matches_anchored_cat (ic : bool) (r : regex) (w : jsstring) :
  matches ic r 0 w [] -> matches ic (cat [Bol; r; Eol]) 0 w [].
Proof.
  intros M. cbn [cat fold_right matches].
  exists [], w. split; [reflexivity|]. split; [split; reflexivity|].
  exists w, []. rewrite app_nil_r. split; [reflexivity|].
  split; [exact M|]. exists [], []. repeat split.
Qed.

Lemma long_digit_run_is_USPS (n : jsstring) :
  long_digit_run n -> fully_matches USPS n.
Proof.
  intros (Hd & Hl). apply matches_anchored_cat. left.
  cbn [matches within]. repeat split; try lia. exact Hd.
Qed.

Lemma remove_whitespace_digits (k : nat) (g : jsstring) :
  digits k g -> remove_whitespace g = g.
Proof.
  intros [_ Hd]. apply remove_whitespace_none.
  eapply Forall_impl; [|exact Hd]. intros c Hc. cbv beta.
  destruct (in_cls space c) eqn:E; [|reflexivity].
  exfalso. exact (digit_not_space c Hc E).
Qed.

Lemma spaced_without_whitespace (sizes : list nat) :
  forall n p post, spaced sizes n ->
  matches false (optspaced_regex sizes) p (remove_whitespace n) post.
Proof.
  induction sizes as [|k sizes IH]; intros n p post S; [contradiction|].
  destruct sizes as [|k' sizes].
  - cbn [spaced] in S. rewrite (remove_whitespace_digits k n S).
    destruct S as [L Hd]. cbn [optspaced_regex matches exactly within].
    exists n, []. rewrite app_nil_r. repeat split; try lia. exact Hd.
  - change (exists g ws s', n = g ++ ws ++ s'
              /\ digits k g /\ ws <> [] /\ Forall is_space ws
              /\ spaced (k' :: sizes) s') in S.
    destruct S as (g & ws & s1 & -> & Hg & _ & Hs & S).
    rewrite !remove_whitespace_app, (remove_whitespace_digits k g Hg),
      (remove_whitespace_spaces ws Hs). cbn [app].
    change (optspaced_regex (k :: k' :: sizes))
      with (Seq (exactly digit k)
              (Seq (Rep space 0 (Some 1%nat))
                 (optspaced_regex (k' :: sizes)))).
    cbn [matches exactly within]. destruct Hg as [L Hd].
    exists g, (remove_whitespace s1). split; [reflexivity|].
    split; [repeat split; try lia; exact Hd|].
    exists [], (remove_whitespace s1). split; [reflexivity|].
    split; [repeat split; cbn [length]; try lia; constructor|].
    apply IH. exact S.
Qed.

Lemma usps_spaced_digits_are_USPS (n : jsstring) :
  usps_spaced n -> fully_matches USPS (remove_whitespace n).
Proof.
  intros S. apply matches_anchored_cat. right.
  apply (spaced_without_whitespace [4; 4; 4; 4; 4; 4; 2]%nat n 0 [] S).
Qed.

(** C5 as stated fails: on a text that is no carrier number as a whole,
    pass 3 picks the digit groups with the white space between them, and
    two spaces between two groups are more than the USPS table pattern
    allows. *)
Lemma pickTracking_partial_match_escapes :
  let text := lit "X 9200  1903 4784 2230 0221 1616 74" in
  exists t, pickTracking text = Some t
    /\ carrier t = USPS
    /\ number t = lit "9200  1903 4784 2230 0221 1616 74"
    /\ test (pattern (carrier t)) (number t) = false.
Proof.
  eexists. split; [vm_compute; reflexivity|].
  repeat split.
Qed.

(** C5, amended. A number returned by pass 1, 2 or 4 fully matches the
    table pattern of the carrier it is returned with.  A number returned
    by pass 3 is made of the 4-4-4-4-4-4-2 digit groups and the runs of
    white space between them; it is returned as USPS whether or not it
    matches the USPS table pattern, which its digits alone do. *)
Theorem pickTracking_number_matches (text : jsstring) (t : TrackingMatch) :
  pickTracking text = Some t ->
  test (pattern (carrier t)) (number t) = true
  \/ (pass3 text t
      /\ usps_spaced (number t)
      /\ test (pattern USPS) (remove_whitespace (number t)) = true).
Proof.
  intros E.
  pose proof (pickTracking_cases text) as Main.
  rewrite E in Main.
  destruct Main as [[[M _] Hn]|[(_ & [M _] & Hn)|[P3|(_ & _ & _ & Hc & F)]]].
  - left. apply test_pattern. rewrite Hn. exact M.
  - left. apply test_pattern. rewrite Hn. exact M.
  - right. split; [exact P3|].
    destruct P3 as (_ & _ & _ & (pre & post & _ & S & _)).
    split; [exact S|]. apply test_pattern.
    apply usps_spaced_digits_are_USPS, S.
  - left. apply test_pattern. rewrite Hc.
    destruct F as (pre & post & _ & P & _).
    apply long_digit_run_is_USPS, P.
Qed.

(** C5 amended, on the UPS sample number, which pass 1 returns. *)
Lemma pickTracking_number_matches_witness :
  pickTracking (lit "1Z999AA10123456784")
    = Some (mkTracking UPS (lit "1Z999AA10123456784"))
  /\ test (pattern UPS) (lit "1Z999AA10123456784") = true.
Proof.
  split; [vm_compute; reflexivity|].
  destruct (pickTracking_number_matches (lit "1Z999AA10123456784")
              (mkTracking UPS (lit "1Z999AA10123456784")))
    as [H|(_ & _ & H)].
  - vm_compute; reflexivity.
  - exact H.
  - vm_compute; reflexivity.
Defined.

End TrackingFacts.

(** ** Decode orchestration *)

Section OrchestratorFacts.
Import Regex RegexSpec Orchestrator.











Lemma zxing_loop_fails {Surface : Type} (env : Env Surface)
    (vs : list Variation) :
  forall n, Forall (fun u => attempt env u = None) vs ->
  zxing_loop env vs n
  = (None, (n + length (filter (rendered env) vs))%nat,
     flat_map (attempt_calls env) vs).
Proof.
  induction vs as [|v vs IH]; intros n HF.
  - cbn. rewrite Nat.add_0_r. reflexivity.
  - inversion HF as [|? ? Hv HF']; subst.
    unfold attempt, fallback_on in Hv.
    cbn [zxing_loop flat_map filter]. unfold rendered at 1, attempt_calls at 1.
    destruct (render env v) as [el|].
    + destruct (decode env baseline el); [discriminate|]. rewrite Hv.
      rewrite (IH (S n) HF'). cbn [length app]. do 2 f_equal. lia.
    + rewrite (IH n HF'). reflexivity.
Qed.

Lemma zxing_loop_succeeds {Surface : Type} (env : Env Surface)
    (before : list Variation) (v : Variation) (after : list Variation)
    (text : jsstring) :
  forall n, Forall (fun u => attempt env u = None) before ->
  attempt env v = Some text ->
  zxing_loop env (before ++ v :: after) n
  = (Some text, (n + length (filter (rendered env) (before ++ [v])))%nat,
     flat_map (attempt_calls env) (before ++ [v])).
Proof.
  induction before as [|u before IH]; intros n HF Hv.
  - cbn [app zxing_loop flat_map filter]. unfold attempt, fallback_on in Hv.
    unfold rendered, attempt_calls.
    destruct (render env v) as [el|]; [|discriminate].
    destruct (decode env baseline el) as [t|].
    + injection Hv as ->. cbn [length app]. do 2 f_equal. lia.
    + rewrite Hv. cbn [length app]. do 2 f_equal. lia.
  - inversion HF as [|? ? Hu HF']; subst.
    unfold attempt, fallback_on in Hu.
    cbn [app zxing_loop flat_map filter].
    unfold rendered at 1, attempt_calls at 1.
    destruct (render env u) as [el|].
    + destruct (decode env baseline el); [discriminate|]. rewrite Hu.
      rewrite (IH (S n) HF' Hv). cbn [length app]. do 2 f_equal. lia.
    + rewrite (IH n HF' Hv). reflexivity.
Qed.

Lemma first_attempt {Surface : Type} (env : Env Surface)
    (vs : list Variation) :
  Forall (fun u => attempt env u = None) vs
  \/ exists before v after text,
       vs = before ++ v :: after
       /\ Forall (fun u => attempt env u = None) before
       /\ attempt env v = Some text.
Proof.
  induction vs as [|v vs IH]; [left; constructor|].
  destruct (attempt env v) as [text|] eqn:E.
  - right. exists [], v, vs, text. repeat split; [constructor|exact E].
  - destruct IH as [IH|(before & w & after & text & -> & HF & Hw)].
    + left. constructor; assumption.
    + right. exists (v :: before), w, after, text.
      repeat split; [constructor; assumption|exact Hw].
Qed.

(** C3 as stated fails: the native backend is not tried on each
    variant's surface.  On a file whose upscaled canvas the native
    detector would read, [decodeFromFile] calls it on the image as
    loaded only, and returns what the fallback decoder reads from the
    upscaled canvas; the pipeline as stated would return the native
    detector's reading. *)
Lemma decodeFromFile_native_not_per_variant :
  decodeFromFile upscaled_only
  = (Some (lit "0123456789"), 2%nat,
     [NativeDetect ImageElement;
      ZXingDecode baseline ImageElement; ZXingDecode permissive ImageElement;
      ZXingDecode baseline (CanvasFromFile 2.0)])
  /\ per_variant_pipeline upscaled_only imageVariations
     = Some (lit "1Z999AA10123456784")
  /\ fst (fst (decodeFromFile upscaled_only))
     <> per_variant_pipeline upscaled_only imageVariations.
Proof.
  split; [reflexivity|]. split; [reflexivity|].
  vm_compute. discriminate.
Qed.

(** C3, amended. In file-decode mode the native backend is tried once,
    on the image as loaded and before any variant; if it yields a text,
    that is the result and the fallback backend is not called.  Only if
    native yields nothing are the variants gone through in list order:
    on each one that renders, the fallback backend with the baseline
    profile (tryHarder) and, if that fails, once more with the permissive
    profile (tryHarder, alsoInverted, pureBarcode=false); the first
    success ends the pipeline and is the result. *)
Theorem decodeFromFile_native_once_then_variants {Surface : Type}
    (env : Env Surface) :
  let result := fst (fst (decodeFromFile env)) in
  let attemptCount := snd (fst (decodeFromFile env)) in
  let calls := snd (decodeFromFile env) in
  let native_calls := snd (native_step env) in
  (TRY_HARDER baseline = Some true
   /\ permissive = mkHints None (Some true) (Some false) (Some true))
  /\ (native_calls = [] \/ native_calls = [NativeDetect ImageElement])
  /\ (forall v, In (NativeDetect v) calls ->
        v = ImageElement /\ hd_error calls = Some (NativeDetect ImageElement))
  /\ (forall text, fst (native_step env) = Some text ->
        result = Some text /\ calls = [NativeDetect ImageElement])
  /\ (fst (native_step env) = None ->
        (result = None
         /\ Forall (fun u => attempt env u = None) imageVariations
         /\ calls = native_calls
                    ++ flat_map (attempt_calls env) imageVariations
         /\ attemptCount = length (filter (rendered env) imageVariations))
        \/ (exists before v after text,
              imageVariations = before ++ v :: after
              /\ Forall (fun u => attempt env u = None) before
              /\ attempt env v = Some text
              /\ result = Some text
              /\ calls = native_calls
                         ++ flat_map (attempt_calls env) (before ++ [v])
              /\ attemptCount
                 = length (filter (rendered env) (before ++ [v])))).
Proof.
  cbv zeta. split; [split; reflexivity|].
  assert (Hn : snd (native_step env) = []
               \/ snd (native_step env) = [NativeDetect ImageElement]).
  { unfold native_step. destruct (nativeDetector env) as [detect|];
      [|left; reflexivity].
    destruct (render env ImageElement) as [img|]; [|left; reflexivity].
    destruct (detect img); right; reflexivity. }
  split; [exact Hn|]. split.
  { intros v Hv. unfold decodeFromFile in Hv |- *.
    destruct (native_step env) as [r c]. cbn [fst snd] in Hn.
    assert (Hz : forall l, ~ In (NativeDetect v)
                             (flat_map (attempt_calls env) l)).
    { intros l Hl. apply in_flat_map in Hl. destruct Hl as (u & _ & Hu).
      unfold attempt_calls in Hu. destruct (render env u) as [el|]; [|exact Hu].
      destruct (decode env baseline el);
        cbn [In] in Hu; intuition discriminate. }
    assert (Hcalls : forall n, In (NativeDetect v)
                         (snd (zxing_loop env imageVariations n)) -> False).
    { intros n.
      destruct (first_attempt env imageVariations)
        as [HF|(before & u & after & text & Ev & HF & Hu)].
      - rewrite (zxing_loop_fails env imageVariations n HF). apply Hz.
      - pose proof (zxing_loop_succeeds env before u after text n HF Hu) as E.
        rewrite <- Ev in E. rewrite E. apply Hz. }
    destruct r as [text|].
    - cbn [snd] in Hv |- *. destruct Hn as [-> | ->]; [contradiction|].
      destruct Hv as [Hv|[]]. injection Hv as <-. split; reflexivity.
    - specialize (Hcalls O).
      destruct (zxing_loop env imageVariations 0) as [[r' n'] c'].
      cbn [snd] in Hv, Hcalls |- *. apply in_app_or in Hv.
      destruct Hv as [Hv|Hv]; [|contradiction].
      destruct Hn as [-> | ->]; [contradiction|].
      destruct Hv as [Hv|[]]. injection Hv as <-. split; reflexivity. }
  split.
  - intros text Ht. unfold decodeFromFile.
    destruct (native_step env) as [r c] eqn:E. cbn [fst snd] in *. subst r.
    cbn [fst snd]. split; [reflexivity|].
    destruct Hn as [Hn|Hn]; [|exact Hn]. exfalso.
    unfold native_step in E. destruct (nativeDetector env) as [detect|];
      [|discriminate].
    destruct (render env ImageElement) as [img|]; [|discriminate].
    destruct (detect img); injection E as _ E; subst c; discriminate.
  - intros Hnone. unfold decodeFromFile.
    destruct (native_step env) as [r c] eqn:E. cbn [fst snd] in *. subst r.
    destruct (first_attempt env imageVariations)
      as [HF|(before & v & after & text & Ev & HF & Hv)].
    + left. rewrite (zxing_loop_fails env imageVariations 0 HF).
      cbn [fst snd]. repeat split. exact HF.
    + right. exists before, v, after, text.
      pose proof (zxing_loop_succeeds env before v after text 0 HF Hv) as Hz.
      rewrite <- Ev in Hz. rewrite Hz.
      cbn [fst snd]. repeat split; assumption.
Qed.

(** C3 amended, on the file of the counterexample. *)
Lemma decodeFromFile_native_once_then_variants_witness :
  fst (native_step upscaled_only) = None
  /\ exists before v after text,
       imageVariations = before ++ v :: after
       /\ Forall (fun u => attempt upscaled_only u = None) before
       /\ attempt upscaled_only v = Some text
       /\ fst (fst (decodeFromFile upscaled_only)) = Some text.
Proof.
  split; [reflexivity|].
  destruct (proj2 (proj2 (proj2 (proj2
    (decodeFromFile_native_once_then_variants upscaled_only)))) eq_refl)
    as [(H & _)|(before & v & after & text & H1 & H2 & H3 & H4 & _)].
  - discriminate H.
  - exists before, v, after, text. repeat split; assumption.
Defined.

End OrchestratorFacts.

(** ** Pixel transforms *)

Section InvertFacts.
Import Transform.

Lemma clamp8_byte (v : Z) : 0 <= v <= 255 -> clamp8 (255 - v) = 255 - v.
Proof. unfold clamp8. lia. Qed.

(** Induction over a byte array pixel by pixel. *)
Lemma pixel_ind (P : list Z -> Prop) :
  P [] -> (forall r, P [r]) -> (forall r g, P [r; g]) ->
  (forall r g b, P [r; g; b]) ->
  (forall r g b a rest, P rest -> P (r :: g :: b :: a :: rest)) ->
  forall d, P d.
Proof.
  intros H0 H1 H2 H3 H4.
  fix F 1. intros [|r [|g [|b [|a rest]]]].
  - exact H0.
  - apply H1.
  - apply H2.
  - apply H3.
  - apply H4, F.
Qed.

Lemma invert_data_bytes (d : list Z) :
  bytes d -> bytes (invert_data d).
Proof.
  unfold bytes.
  induction d as [|r|r g|r g b|r g b a rest IH] using pixel_ind;
    intros H; cbn [invert_data];
    repeat match goal with
           | H : Forall _ (_ :: _) |- _ => inversion H; clear H; subst
           end;
    repeat (constructor; [unfold clamp8; lia|]); try constructor;
    try assumption.
  apply IH. assumption.
Qed.

Lemma invert_data_length (d : list Z) :
  length (invert_data d) = length d.
Proof.
  induction d as [|r|r g|r g b|r g b a rest IH] using pixel_ind;
    cbn [invert_data length]; congruence.
Qed.

Lemma invert_data_involutive (d : list Z) :
  bytes d -> invert_data (invert_data d) = d.
Proof.
  unfold bytes.
  induction d as [|r|r g|r g b|r g b a rest IH] using pixel_ind;
    intros H; cbn [invert_data];
    repeat match goal with
           | H : Forall _ (_ :: _) |- _ => inversion H; clear H; subst
           end;
    rewrite ?IH by assumption;
    repeat (f_equal; [unfold clamp8; lia|]); try reflexivity.
  all: f_equal; unfold clamp8; lia.
Qed.

Lemma invert_data_channels (d : list Z) :
  bytes d ->
  forall i, nth_error (invert_data d) i
            = option_map (invert_channel i) (nth_error d i).
Proof.
  unfold bytes.
  induction d as [|r|r g|r g b|r g b a rest IH] using pixel_ind;
    intros H i; cbn [invert_data];
    repeat match goal with
           | H : Forall _ (_ :: _) |- _ => inversion H; clear H; subst
           end.
  - destruct i; reflexivity.
  - destruct i as [|[|i]]; rewrite ?clamp8_byte by assumption;
      reflexivity.
  - destruct i as [|[|[|i]]]; rewrite ?clamp8_byte by assumption;
      reflexivity.
  - destruct i as [|[|[|[|i]]]]; rewrite ?clamp8_byte by assumption;
      reflexivity.
  - destruct i as [|[|[|[|i]]]];
      try (rewrite ?clamp8_byte by assumption; reflexivity).
    cbn [nth_error]. rewrite IH by assumption. unfold invert_channel.
    replace (S (S (S (S i))) mod 4)%nat with (i mod 4)%nat; [reflexivity|].
    change (S (S (S (S i)))) with (4 + i)%nat.
    rewrite Nat.add_comm. symmetry.
    exact (Nat.Div0.mod_add i 1 4).
Qed.

(** C9. Invert maps the R, G and B bytes of every pixel to 255 minus
    their value and leaves alpha as it is, and applying it twice gives
    the surface back, byte for byte. *)
Theorem invert_involution (src : ImageData) :
  bytes (data src) ->
  createInvertedCanvas (createInvertedCanvas src) = src
  /\ width (createInvertedCanvas src) = width src
  /\ height (createInvertedCanvas src) = height src
  /\ length (data (createInvertedCanvas src)) = length (data src)
  /\ forall i, nth_error (data (createInvertedCanvas src)) i
               = option_map (invert_channel i) (nth_error (data src) i).
Proof.
  intros H. unfold createInvertedCanvas. cbn [width height data].
  split; [|split; [reflexivity|split; [reflexivity|split]]].
  - rewrite invert_data_involutive by exact H. destruct src; reflexivity.
  - apply invert_data_length.
  - apply invert_data_channels, H.
Qed.

(** C9, on the 2 by 2 sample. *)
Lemma invert_involution_witness :
  bytes (data sample)
  /\ createInvertedCanvas (createInvertedCanvas sample) = sample.
Proof.
  assert (H : bytes (data sample)).
  { repeat constructor; cbn; lia. }
  split; [exact H|]. apply (invert_involution sample H).
Defined.

End InvertFacts.

Section BandFacts.
Import Transform.
Local Open Scope Qc_scope.



















End BandFacts.

Section AdaptiveFacts.
Import Transform.
Local Open Scope Qc_scope.




























End AdaptiveFacts.

(** ** Stability gate *)

Section StabilityFacts.
Import Stability.

Lemma same_true (c : jsstring) (x : option jsstring) :
  same c x = true <-> x = Some c.
Proof.
  destruct x as [s|]; simpl.
  - destruct (str_eqb_spec c s); split; congruence.
  - split; congruence.
Qed.

Lemma same_false (c : jsstring) (x : option jsstring) :
  same c x = false <-> x <> Some c.
Proof.
  rewrite <- same_true. destruct (same c x); split; congruence.
Qed.

Lemma candidate_of_Some (t : option TrackingMatch) (c : jsstring) :
  candidate_of t = Some c ->
  exists m, t = Some m /\ number m = c /\ c <> [].
Proof.
  destruct t as [m|]; simpl; [|discriminate].
  destruct (number m) as [|x n] eqn:E; simpl; [discriminate|].
  intros [= <-]. exists m. repeat split; congruence.
Qed.

Lemma trailing_run_same (c : jsstring) (h : list (option jsstring)) :
  trailing_run c (Some c :: h) = 1 + trailing_run c h.
Proof. change (trailing_run c (Some c :: h))
  with (if str_eqb c c then 1 + trailing_run c h else 0).
  now rewrite str_eqb_refl.
Qed.

Lemma trailing_run_other (c c' : jsstring) (h : list (option jsstring)) :
  c <> c' -> trailing_run c (Some c' :: h) = 0.
Proof.
  intros N. change (trailing_run c (Some c' :: h))
  with (if str_eqb c c' then 1 + trailing_run c h else 0).
  destruct (str_eqb_spec c c'); [congruence|reflexivity].
Qed.

Lemma maybeEmit_counts (now : Z) (t : option TrackingMatch) (g : Globals)
    (h : list (option jsstring)) :
  counts_history g h ->
  counts_history (snd (maybeEmit now t g)) (candidate_of t :: h).
Proof.
  unfold counts_history, maybeEmit. intros H.
  destruct (candidate_of t) as [c|] eqn:Ec.
  2:{ cbn [snd set_stability prevCandidate]. right. eauto. }
  destruct (same c (prevCandidate g)) eqn:Es.
  - apply same_true in Es. rewrite Es in H. destruct H as [Hc [older ->]].
    assert (Hp : prevCandidate g = Some c) by exact Es.
    destruct (_ && _); cbn [snd set_stability prevCandidate stableCount];
      rewrite Hp, trailing_run_same; (split; [lia | eauto]).
  - apply same_false in Es.
    assert (Hz : trailing_run c h = 0).
    { destruct (prevCandidate g) as [c'|].
      - destruct H as [_ [older ->]]. apply trailing_run_other. congruence.
      - destruct H as [->|[older ->]]; reflexivity. }
    destruct (_ && _); cbn [snd set_stability prevCandidate stableCount];
      rewrite trailing_run_same; (split; [lia | eauto]).
Qed.

Lemma run_counts (frames : list (Z * option TrackingMatch)) (g : Globals)
    (h : list (option jsstring)) :
  counts_history g h ->
  counts_history (snd (run frames g)) (rev (candidates frames) ++ h).
Proof.
  revert g h; induction frames as [|[now t] frames IH]; intros g h H; simpl.
  - exact H.
  - pose proof (maybeEmit_counts now t g h H) as H1.
    destruct (maybeEmit now t g) as [e g1]; simpl in H1.
    specialize (IH g1 _ H1).
    destruct (run frames g1) as [es g2]; simpl in *.
    rewrite <- app_assoc. exact IH.
Qed.

Lemma streak_after_history (c : jsstring) (g : Globals)
    (h : list (option jsstring)) :
  counts_history g h -> streak_after c g = 1 + trailing_run c h.
Proof.
  unfold counts_history, streak_after. intros H.
  destruct (same c (prevCandidate g)) eqn:Es.
  - apply same_true in Es. rewrite Es in H. lia.
  - apply same_false in Es. destruct (prevCandidate g) as [c'|].
    + destruct H as [_ [older ->]]. rewrite trailing_run_other by congruence. reflexivity.
    + destruct H as [->|[older ->]]; reflexivity.
Qed.

Lemma run_cons (now : Z) (t : option TrackingMatch)
    (rest : list (Z * option TrackingMatch)) (g : Globals) :
  run ((now, t) :: rest) g =
  (fst (maybeEmit now t g) :: fst (run rest (snd (maybeEmit now t g))),
   snd (run rest (snd (maybeEmit now t g)))).
Proof.
  cbn [run]. destruct (maybeEmit now t g) as [e g1]. cbn [fst snd].
  destruct (run rest g1); reflexivity.
Qed.

Lemma maybeEmit_Some (now : Z) (t : option TrackingMatch) (g : Globals)
    (c : jsstring) :
  candidate_of t = Some c ->
  maybeEmit now t g =
  if (streak_after c g >=? STABLE_FRAMES)
     && (negb (same c (lastTracking g)) || (now >? cooldownUntil g))
  then (true, set_stability g (Some c) (Some c) (streak_after c g)
                (now + COOLDOWN_MS))
  else (false, set_stability g (lastTracking g) (Some c) (streak_after c g)
                 (cooldownUntil g)).
Proof.
  intros E. unfold maybeEmit, streak_after. rewrite E.
  destruct (same c (prevCandidate g)) eqn:Es; [|reflexivity].
  apply same_true in Es. rewrite Es. reflexivity.
Qed.

(** C2. For a frame with a non-null candidate, [maybeEmit] emits exactly
    when the streak of consecutive frames with that candidate has reached
    STABLE_FRAMES = 3 and the candidate differs from the last emitted one
    or the time is past [cooldownUntil]; the streak it keeps is the number
    of frames with the candidate at the end of the session's history; an
    emission stores the candidate in [lastTracking] and [now + 900] in
    [cooldownUntil].  On the frames null, A, A, A, A, the last two less
    than the cooldown apart, the only emission is at the fourth frame. *)
Theorem maybeEmit_emits_iff_stable_and_due
    (now : Z) (t : TrackingMatch) (g : Globals) (c : jsstring) :
  candidate_of (Some t) = Some c ->
  let emitted := fst (maybeEmit now (Some t) g) in
  let g' := snd (maybeEmit now (Some t) g) in
  (emitted = true <->
     streak_after c g >= STABLE_FRAMES
     /\ (lastTracking g <> Some c \/ now > cooldownUntil g))
  /\ stableCount g' = streak_after c g
  /\ prevCandidate g' = Some c
  /\ (forall history, g = snd (run history initial) ->
        streak_after c g
        = trailing_run c (rev (candidates (history ++ [(now, Some t)]))))
  /\ (emitted = true ->
        lastTracking g' = Some c /\ cooldownUntil g' = now + COOLDOWN_MS)
  /\ (forall k1 k2 k3 k4 t1 t2 t3 t4 t5,
        t5 - t4 < COOLDOWN_MS ->
        fst (run [null_frame t1; frame t2 k1 c; frame t3 k2 c;
                  frame t4 k3 c; frame t5 k4 c] initial)
        = [false; false; false; true; false]).
Proof.
  intros E emitted g'. subst emitted g'.
  rewrite (maybeEmit_Some now (Some t) g c E).
  assert (Hc : c <> []).
  { apply candidate_of_Some in E. destruct E as (m & _ & _ & N). exact N. }
  split; [|split; [|split; [|split; [|split]]]].
  - destruct (Z.geb_spec (streak_after c g) STABLE_FRAMES) as [Hs|Hs];
      cbn [andb].
    + destruct (same c (lastTracking g)) eqn:El; cbn [negb orb].
      * apply same_true in El.
        destruct (Z.gtb_spec now (cooldownUntil g)); cbn [fst]; split.
        -- intros _. split; [lia|right; lia].
        -- reflexivity.
        -- discriminate.
        -- intros [_ [N|N]]; [congruence|lia].
      * apply same_false in El. cbn [fst]. split; [|reflexivity].
        intros _. split; [lia|left; exact El].
    + cbn [fst]. split; [discriminate|]. intros [N _]. lia.
  - destruct (_ && _); reflexivity.
  - destruct (_ && _); reflexivity.
  - intros history ->. unfold candidates. rewrite map_app, rev_app_distr.
    cbn [map rev app snd]. rewrite E, trailing_run_same.
    apply streak_after_history.
    pose proof (run_counts history initial [] (or_introl eq_refl)) as H.
    rewrite app_nil_r in H. exact H.
  - destruct (_ && _); cbn [fst snd]; [|discriminate].
    intros _. split; reflexivity.
  - intros k1 k2 k3 k4 t1 t2 t3 t4 t5 Ht.
    assert (EA : forall k, candidate_of (Some (mkTracking k c)) = Some c).
    { intros k. destruct c; [congruence|reflexivity]. }
    unfold null_frame, frame. rewrite !run_cons. cbn [run fst snd].
    change (maybeEmit t1 None initial)
      with (false, set_stability initial None None 0 0).
    cbn [fst snd].
    repeat (rewrite (maybeEmit_Some _ _ _ c (EA _)); unfold streak_after;
            cbn [set_stability prevCandidate stableCount lastTracking
                 cooldownUntil same initial];
            rewrite ?str_eqb_refl;
            change (1 + 1) with 2; change (2 + 1) with 3; change (3 + 1) with 4;
            change (1 >=? STABLE_FRAMES) with false;
            change (2 >=? STABLE_FRAMES) with false;
            change (3 >=? STABLE_FRAMES) with true;
            change (4 >=? STABLE_FRAMES) with true;
            cbn [andb orb negb fst snd]).
    destruct (Z.gtb_spec t5 (t4 + COOLDOWN_MS)); [lia|reflexivity].
Qed.

(** C2, on the frames null, A, A, A, A read 400 ms apart. *)
Lemma maybeEmit_emits_iff_stable_and_due_witness :
  candidate_of (Some (mkTracking USPS (lit "A"))) = Some (lit "A")
  /\ fst (run [null_frame 0; frame 400 USPS (lit "A");
               frame 800 USPS (lit "A"); frame 1200 USPS (lit "A");
               frame 1600 USPS (lit "A")] initial)
     = [false; false; false; true; false].
Proof.
  split; [reflexivity|].
  apply (maybeEmit_emits_iff_stable_and_due 0 (mkTracking USPS (lit "A"))
           initial (lit "A") eq_refl).
  reflexivity.
Defined.

Lemma suppressed_frames_silent (c : jsstring) (g : Globals)
    (frames : list (Z * option TrackingMatch)) :
  lastTracking g = Some c ->
  Forall (fun f => fst f <= cooldownUntil g
                   /\ (candidate_of (snd f) = Some c
                       \/ candidate_of (snd f) = None)) frames ->
  Forall (fun e => e = false) (fst (run frames g))
  /\ lastTracking (snd (run frames g)) = lastTracking g
  /\ cooldownUntil (snd (run frames g)) = cooldownUntil g.
Proof.
  intros Hl HF. revert g Hl HF.
  induction frames as [|[now t] frames IH]; intros g Hl HF.
  - cbn [run fst snd]. repeat split. constructor.
  - rewrite run_cons. cbn [fst snd].
    inversion HF as [|f fs [Hnow Hcand] HF']; subst. cbn [fst snd] in *.
    assert (Hstep : fst (maybeEmit now t g) = false
                    /\ lastTracking (snd (maybeEmit now t g)) = lastTracking g
                    /\ cooldownUntil (snd (maybeEmit now t g)) = cooldownUntil g).
    { destruct Hcand as [Ec|Ec].
      - rewrite (maybeEmit_Some now t g c Ec).
        replace (same c (lastTracking g)) with true
          by (symmetry; apply same_true; exact Hl).
        destruct (Z.gtb_spec now (cooldownUntil g)); [lia|].
        cbn [negb orb]. rewrite andb_false_r. repeat split.
      - unfold maybeEmit. rewrite Ec. repeat split. }
    destruct Hstep as (He & Hl' & Hc').
    destruct (IH (snd (maybeEmit now t g))) as (H1 & H2 & H3).
    + congruence.
    + rewrite Hc'. exact HF'.
    + repeat split; [constructor; assumption | congruence | congruence].
Qed.

(** C10. A frame whose extractor result is null makes [maybeEmit] return
    false and set [prevCandidate] to null and [stableCount] to 0; it
    leaves [lastTracking], [cooldownUntil] and every other variable as
    they were.  So after an emission of [c], frames that are null or read
    [c] again, in any number and order, emit nothing while the time is not
    past [cooldownUntil]. *)
Theorem null_frame_keeps_cooldown (now : Z) (g : Globals) :
  maybeEmit now None g
  = (false, set_stability g (lastTracking g) None 0 (cooldownUntil g))
  /\ (let g' := snd (maybeEmit now None g) in
      prevCandidate g' = None /\ stableCount g' = 0
      /\ lastTracking g' = lastTracking g
      /\ cooldownUntil g' = cooldownUntil g)
  /\ (forall c frames,
        lastTracking g = Some c ->
        Forall (fun f => fst f <= cooldownUntil g
                         /\ (candidate_of (snd f) = Some c
                             \/ candidate_of (snd f) = None)) frames ->
        Forall (fun e => e = false) (fst (run frames g))).
Proof.
  split; [reflexivity|]. split; [repeat split|].
  intros c frames Hl HF.
  apply (suppressed_frames_silent c g frames Hl HF).
Qed.

(** C10, after an emission of "A" at 800 ms: a null frame, then "A"
    three more times before 1700 ms, and nothing is emitted. *)
Lemma null_frame_keeps_cooldown_witness :
  lastTracking after_emission = Some (lit "A")
  /\ cooldownUntil after_emission = 1700
  /\ Forall (fun e => e = false)
       (fst (run [null_frame 900; frame 1100 USPS (lit "A");
                  frame 1300 USPS (lit "A"); frame 1500 USPS (lit "A")]
               after_emission)).
Proof.
  split; [reflexivity|]. split; [reflexivity|].
  apply (proj2 (proj2 (null_frame_keeps_cooldown 0 after_emission))
           (lit "A")); [reflexivity|].
  repeat constructor; vm_compute; congruence.
Defined.

(** C6 as stated fails: after "A" was read twice, stopping leaves the
    candidate and the streak in place, so the stability state is not
    reset and the first frame of the next session that reads "A"
    emits at once. *)
Lemma stopDecoding_does_not_reset :
  let g := snd (run [frame 0 USPS (lit "A"); frame 400 USPS (lit "A")]
                  initial) in
  ~ fully_reset (stopDecoding NoFault g)
  /\ prevCandidate (stopDecoding NoFault g) = Some (lit "A")
  /\ stableCount (stopDecoding NoFault g) = 2
  /\ fst (maybeEmit 5000 (Some (mkTracking USPS (lit "A")))
            (stopDecoding NoFault g)) = true.
Proof.
  cbv zeta. split; [|repeat split].
  intros (H & _). vm_compute in H. discriminate.
Qed.

(** C6, amended. [stopDecoding] ends the session (the scanning flags,
    the animation frame and the stream) but writes none of the four
    StabilityState variables, whether or not a call inside it throws:
    [prevCandidate], [stableCount], [lastTracking] and [cooldownUntil]
    keep their values, and the gate answers the next frame exactly as it
    would have without the stop. *)
Theorem stopDecoding_keeps_stability_state (f : StopFault) (g : Globals) :
  stability_state (stopDecoding f g) = stability_state g
  /\ usingNativeDetector (stopDecoding f g) = false
  /\ rafId (stopDecoding f g) = None
  /\ (f = NoFault -> isScanning (stopDecoding f g) = false
                     /\ currentStream (stopDecoding f g) = None)
  /\ forall now t,
       fst (maybeEmit now t (stopDecoding f g)) = fst (maybeEmit now t g)
       /\ stability_state (snd (maybeEmit now t (stopDecoding f g)))
          = stability_state (snd (maybeEmit now t g)).
Proof.
  assert (Hs : stability_state (stopDecoding f g) = stability_state g).
  { unfold stopDecoding.
    destruct f, (codeReader g && isScanning g), (currentStream g);
      reflexivity. }
  split; [exact Hs|].
  split; [unfold stopDecoding;
          destruct f, (codeReader g && isScanning g), (currentStream g);
          reflexivity|].
  split; [unfold stopDecoding;
          destruct f, (codeReader g && isScanning g), (currentStream g);
          reflexivity|].
  split.
  { intros ->. unfold stopDecoding.
    destruct (codeReader g && isScanning g), (currentStream g);
      split; reflexivity. }
  intros now t. unfold stability_state in Hs.
  injection Hs as Hp Hc Hl Hu.
  unfold maybeEmit, stability_state.
  destruct (candidate_of t) as [c|]; cbn [fst snd].
  - rewrite Hp, Hc, Hl, Hu.
    destruct (same c (prevCandidate g));
      destruct (_ && _); cbn [fst snd set_stability prevCandidate stableCount
                              lastTracking cooldownUntil]; split; congruence.
  - cbn [set_stability prevCandidate stableCount lastTracking cooldownUntil].
    split; congruence.
Qed.

(** C6 amended, with no fault in the stop. *)
Lemma stopDecoding_keeps_stability_state_witness :
  NoFault = NoFault
  /\ isScanning (stopDecoding NoFault after_emission) = false
  /\ stability_state (stopDecoding NoFault after_emission)
     = (Some (lit "A"), 3, Some (lit "A"), 1700).
Proof.
  split; [reflexivity|]. split.
  - apply (proj1 (proj2 (proj2 (proj2
      (stopDecoding_keeps_stability_state NoFault after_emission)))) eq_refl).
  - rewrite (proj1 (stopDecoding_keeps_stability_state NoFault after_emission)).
    reflexivity.
Defined.

End StabilityFacts.
